(** * grace-bible: the Gemini service, the audio decoders and the App state

    A shallow embedding of the TypeScript sources

    - [services/geminiService.ts]   (module [Services]),
    - the [geminiService.ts] that guards the credential with [getAiClient]
      (module [Gemini]),
    - the two [App] components (module [App]; their playback, progress and
      font-size handlers have the same text, differences are noted in place),

    followed by the properties of the specification, each stated on these
    definitions. *)

From Stdlib Require Import ZArith QArith Qround Ascii String List Lia.
From Stdlib.Strings Require Import Byte.
From stdpp Require Import gmap strings list pretty.

Local Open Scope string_scope.
Local Open Scope Z_scope.

(* ===================================================================== *)
(** * JavaScript values that the embedding needs *)
(* ===================================================================== *)

Module Js.

(** Strings are sequences of 8-bit characters: a binary string of [atob]
    is represented exactly, and a text outside ASCII stands for its bytes. *)

(** What a [throw] (or a rejected promise) carries. *)
Inductive Exception : Type :=
| Error (message : string)          (* [new Error(message)] *)
| InvalidCharacterError             (* DOMException of [atob] *)
| RangeError                        (* typed-array construction *)
| NotSupportedError                 (* DOMException of [createBuffer] *)
| InvalidStateError                 (* DOMException of [stop] *)
| TypeError                         (* a method called on [null] *)
| ApiError (status : Z).            (* the SDK's rejection: network, auth *)

(** The completion of a call: a normal return or a throw. For an [async]
    function it is how the returned promise settles. *)
Inductive Completion (A : Type) : Type :=
| Return (a : A)
| Throw (e : Exception).
Arguments Return {A} a.
Arguments Throw {A} e.

Definition bind {A B} (c : Completion A) (k : A -> Completion B) : Completion B :=
  match c with
  | Return a => k a
  | Throw e => Throw e
  end.

(** [try { c } catch (e) { h e }] *)
Definition try_catch {A} (c : Completion A) (h : Exception -> Completion A)
  : Completion A :=
  match c with
  | Return a => Return a
  | Throw e => h e
  end.

(** [s || d] on an optional string: [undefined] and [""] are falsy. *)
Definition or_else (s : option string) (d : string) : string :=
  match s with
  | Some "" => d
  | Some v => v
  | None => d
  end.

(** [!s] on an optional string. *)
Definition falsy (s : option string) : bool :=
  match s with
  | Some "" => true
  | Some _ => false
  | None => true
  end.

End Js.

Import Js.

#[export] Instance completion_bind : MBind Completion :=
  fun A B k c => Js.bind c k.

(* ===================================================================== *)
(** * The [@google/genai] collaborator *)
(* ===================================================================== *)

Module GenAI.

(** The fields of a [generateContent] request that the services set. *)
Record Request : Type := mkRequest {
  model : string;
  contents : string;
  temperature : option Q;
  audio_modality : bool;            (* [responseModalities: [Modality.AUDIO]] *)
  voiceName : option string
}.

Record InlineData : Type := mkInlineData { data : option string }.

Record Part : Type := mkPart {
  part_text : option string;
  inlineData : option InlineData
}.

Record Content : Type := mkContent { parts : option (list Part) }.

Record Candidate : Type := mkCandidate { content : option Content }.

Record Response : Type := mkResponse {
  text : option string;             (* the SDK's [response.text] *)
  candidates : option (list Candidate)
}.

(** [new GoogleGenAI({ apiKey })]: the client only remembers the key. *)
Record Client : Type := mkClient { apiKey : option string }.

(** [ai.models.generateContent]: the remote service. Every way it can
    behave is a function of this type; a failure of the network or of the
    credential is a rejection. *)
Definition Endpoint : Type := Client -> Request -> Completion Response.

(** [o?.[0]] on an optional array. *)
Definition first {A} (o : option (list A)) : option A :=
  match o with
  | Some (x :: _) => Some x
  | _ => None
  end.

(** [response.candidates?.[0]?.content?.parts?.[0]?.inlineData?.data] *)
Definition first_part_data (response : Response) : option string :=
  c ← first (candidates response);
  ct ← content c;
  p ← first (parts ct);
  i ← inlineData p;
  data i.

(** The inline payloads that a candidate carries, in the order of its
    parts (the wording of the specification: "candidate contained no
    inline audio data" is this list being empty). *)
Definition candidate_payloads (c : Candidate) : list string :=
  match content c with
  | Some ct =>
      omap (fun p => i ← inlineData p; data i) (default [] (parts ct))
  | None => []
  end.

(** "The first inline audio payload" of the first candidate. *)
Definition first_candidate_payload (response : Response) : option string :=
  c ← first (candidates response);
  head (candidate_payloads c).

(** A response whose first candidate carries its audio in the second part,
    after a text part. *)
Definition audio_in_second_part : Response :=
  mkResponse None
    (Some [mkCandidate
             (Some (mkContent
                      (Some [mkPart (Some "創世記") None;
                             mkPart None (Some (mkInlineData (Some "QUJD")))])))]).

End GenAI.

Import GenAI.

(* ===================================================================== *)
(** * [services/geminiService.ts] *)
(* ===================================================================== *)

Module Services.

(** The argument of [generateContent] in [fetchChapterText]. *)
Definition chapterRequest (book : string) (chapter : Z) : Request :=
  let prompt :=
    "請提供聖經 " ++ book ++ " 第 " ++ pretty chapter
    ++ " 章的全文內容（和合本繁體中文）。僅回傳經文內容，不要包含導言或註解。" in
  mkRequest "gemini-3-flash-preview" prompt (Some (1 # 10)%Q) false None.

(** The argument of [generateContent] in [generateSpeech]. *)
Definition speechRequest (text : string) : Request :=
  mkRequest "gemini-2.5-flash-preview-tts"
    ("朗讀以下聖經經文，語氣平和莊重：" ++ text) None true (Some "Kore").

Section WithEnvironment.
(** [process.env.API_KEY] and the remote service. *)
Variable API_KEY : option string.
Variable generateContent : Endpoint.

Definition fetchChapterText (book : string) (chapter : Z) : Completion string :=
  let ai := mkClient API_KEY in
  response ← generateContent ai (chapterRequest book chapter);
  Return (or_else (text response) "無法獲取經文內容，請稍後再試。").

Definition generateSpeech (text : string) : Completion string :=
  let ai := mkClient API_KEY in
  response ← generateContent ai (speechRequest text);
  let base64Audio := first_part_data response in
  if falsy base64Audio then Throw (Error "Audio generation failed")
  else Return (default "" base64Audio).

End WithEnvironment.

End Services.

(* ===================================================================== *)
(** * [geminiService.ts] with [getAiClient] *)
(* ===================================================================== *)

Module Gemini.

(** The argument of [generateContent] in [fetchChapterText]. *)
Definition chapterRequest (book : string) (chapter : Z) : Request :=
  let prompt :=
    "請提供聖經 " ++ book ++ " 第 " ++ pretty chapter
    ++ " 章的全文內容（中文和合本）。僅輸出經文，不要導言或註解。" in
  mkRequest "gemini-3-flash-preview" prompt (Some (1 # 10)%Q) false None.

(** The argument of [generateContent] in [generateSpeech]. *)
Definition speechRequest (text : string) : Request :=
  mkRequest "gemini-2.5-flash-preview-tts"
    ("請用穩定且莊重的語氣朗讀這段聖經經文：" ++ text) None true (Some "Kore").

(** The credential check of [getAiClient], as a proposition:
    [!apiKey || apiKey === "" || apiKey === "undefined"]. *)
Definition key_missing (k : option string) : Prop :=
  k = None \/ k = Some "" \/ k = Some "undefined".

Section WithEnvironment.
Variable API_KEY : option string.
Variable generateContent : Endpoint.

Definition getAiClient : Completion Client :=
  if falsy API_KEY || bool_decide (API_KEY = Some "undefined")
  then Throw (Error "API_KEY_MISSING")
  else Return (mkClient API_KEY).

Definition fetchChapterText (book : string) (chapter : Z) : Completion string :=
  try_catch
    (ai ← getAiClient;
     response ← generateContent ai (chapterRequest book chapter);
     Return (or_else (text response) "無法獲取經文。"))
    (fun error => Return "讀取失敗，請確認 API Key 是否有效。").

Definition generateSpeech (text : string) : Completion string :=
  try_catch
    (ai ← getAiClient;
     response ← generateContent ai (speechRequest text);
     let base64Audio := first_part_data response in
     if falsy base64Audio then Throw (Error "AUDIO_DATA_EMPTY")
     else Return (default "" base64Audio))
    (fun error => Throw error).

End WithEnvironment.

End Gemini.

(* ===================================================================== *)
(** * The browser: [atob], typed arrays and the Web Audio buffer *)
(* ===================================================================== *)

Module Browser.

(** ** Base64, as the HTML standard's forgiving-base64 decode *)

Definition alphabet : list ascii :=
  list_ascii_of_string
    "ABCDEFGHIJKLMNOPQRSTUVWXYZabcdefghijklmnopqrstuvwxyz0123456789+/".

Definition pad : ascii := "="%char.

(** Position of a character in the base64 alphabet. *)
Fixpoint index_from (c : ascii) (l : list ascii) (n : Z) : option Z :=
  match l with
  | [] => None
  | x :: r => if Ascii.eqb c x then Some n else index_from c r (n + 1)
  end.

Definition alphabet_index (c : ascii) : option Z := index_from c alphabet 0.

(** TAB, LF, FF, CR and SPACE. *)
Definition is_ascii_whitespace (c : ascii) : bool :=
  bool_decide (N_of_ascii c ∈ [9; 10; 12; 13; 32]%N).

(** "If data ends with one or two U+003D (=) code points, then remove them
    from data." *)
Definition remove_padding (l : list ascii) : list ascii :=
  match rev l with
  | c1 :: c2 :: r => if Ascii.eqb c1 pad
                     then (if Ascii.eqb c2 pad then rev r else rev (c2 :: r))
                     else l
  | [c1] => if Ascii.eqb c1 pad then [] else l
  | [] => l
  end.

(** The bit buffer, six bits a character: 24 bits give three bytes, 18
    left-over bits two (the last two bits dropped), 12 left-over bits one
    (the last four dropped). *)
Fixpoint bytes_of_sextets (l : list Z) : list Z :=
  match l with
  | s0 :: s1 :: s2 :: s3 :: r =>
      let n := ((s0 * 64 + s1) * 64 + s2) * 64 + s3 in
      n / 65536 :: (n / 256) mod 256 :: n mod 256 :: bytes_of_sextets r
  | [s0; s1; s2] =>
      let n := ((s0 * 64 + s1) * 64 + s2) / 4 in
      [n / 256; n mod 256]
  | [s0; s1] => [(s0 * 64 + s1) / 16]
  | _ => []
  end.

Definition char_of_code (n : Z) : ascii := ascii_of_N (Z.to_N n).
Definition code_of_char (c : ascii) : Z := Z.of_N (N_of_ascii c).

(** Modelled from the spec: [atob(data)] is the browser's, not the
    repository's; "standard base64 decoding" that "fails on malformed input
    (invalid characters, incorrect padding)" is the forgiving-base64 decode
    of the HTML standard, which is what [atob] runs. The result is a binary
    string, one character a byte. *)
Definition atob (data : string) : Completion string :=
  let data := filter (fun c => is_ascii_whitespace c = false)
                     (list_ascii_of_string data) in
  let data := if (Z.of_nat (length data) mod 4 =? 0)%Z
              then remove_padding data else data in
  if (Z.of_nat (length data) mod 4 =? 1)%Z then Throw InvalidCharacterError
  else match mapM alphabet_index data with
       | None => Throw InvalidCharacterError
       | Some sextets =>
           Return (string_of_list_ascii
                     (map char_of_code (bytes_of_sextets sextets)))
       end.

(** The character of a six-bit value. *)
Definition alphabet_char (n : Z) : ascii := nth (Z.to_nat n) alphabet pad.

(** Modelled from the spec: the encoder of the audio payload is the remote
    service's and no encoder is in the repository; "standard base64" is the
    encoding of RFC 4648 section 4, which is also the browser's [btoa]:
    three bytes give four characters of the alphabet, a last group of one
    or two bytes is padded with [=]. *)
Fixpoint encode_chars (l : list Z) : list ascii :=
  match l with
  | b0 :: b1 :: b2 :: r =>
      alphabet_char (b0 / 4)
      :: alphabet_char ((b0 mod 4) * 16 + b1 / 16)
      :: alphabet_char ((b1 mod 16) * 4 + b2 / 64)
      :: alphabet_char (b2 mod 64)
      :: encode_chars r
  | [b0; b1] =>
      [alphabet_char (b0 / 4);
       alphabet_char ((b0 mod 4) * 16 + b1 / 16);
       alphabet_char ((b1 mod 16) * 4);
       pad]
  | [b0] =>
      [alphabet_char (b0 / 4); alphabet_char ((b0 mod 4) * 16); pad; pad]
  | [] => []
  end.

Definition is_byte (b : Z) : Prop := 0 <= b < 256.
Definition is_sextet (n : Z) : Prop := 0 <= n < 64.

(** The six-bit groups of a byte sequence, without the padding. *)
Fixpoint sextets_of_bytes (l : list Z) : list Z :=
  match l with
  | b0 :: b1 :: b2 :: r =>
      b0 / 4 :: (b0 mod 4) * 16 + b1 / 16 :: (b1 mod 16) * 4 + b2 / 64
      :: b2 mod 64 :: sextets_of_bytes r
  | [b0; b1] => [b0 / 4; (b0 mod 4) * 16 + b1 / 16; (b1 mod 16) * 4]
  | [b0] => [b0 / 4; (b0 mod 4) * 16]
  | [] => []
  end.

(** Modelled from the spec: [btoa(data)] on a binary string, the standard
    encoder of the browser. *)
Definition btoa (data : string) : string :=
  string_of_list_ascii (encode_chars (map code_of_char (list_ascii_of_string data))).

(** ** Typed arrays *)

(** A [Uint8Array] that spans its whole [ArrayBuffer], as the one
    [decodeBase64] allocates. *)
Abbreviation Uint8Array := (list byte) (only parsing).

Definition byte_value (b : byte) : Z := Z.of_N (Byte.to_N b).

(** Modelled from the spec: the base64 text of a byte sequence, as the
    remote service sends it ("response = one audio payload,
    base64-encoded"): [btoa] of the binary string with one character a
    byte. *)
Definition encodeBase64 (bytes : list byte) : string :=
  btoa (string_of_list_ascii (map ascii_of_byte bytes)).

(** A 16-bit two's-complement sample from its two bytes, low byte first
    (typed arrays use the byte order of the platform). *)
Definition int16_of_bytes (lo hi : byte) : Z :=
  let u := byte_value lo + 256 * byte_value hi in
  if u <? 32768 then u else u - 65536.

Fixpoint int16_elements (buffer : list byte) : list Z :=
  match buffer with
  | lo :: hi :: r => int16_of_bytes lo hi :: int16_elements r
  | _ => []
  end.

(** [new Int16Array(buffer)]: a RangeError unless the byte length is a
    multiple of two. *)
Definition Int16Array (buffer : list byte) : Completion (list Z) :=
  if Nat.even (length buffer) then Return (int16_elements buffer)
  else Throw RangeError.

(** ** Numbers and audio buffers *)

(** A JavaScript number: a rational (the ones computed here, a 16-bit
    integer over 32768 and a length over a channel count below 2^53, are
    handled exactly by the double and single formats) or NaN. *)
Inductive number : Type :=
| Num (q : Q)
| NaN.

Abbreviation Float32Array := (list number) (only parsing).

Record AudioBuffer : Type := mkAudioBuffer {
  sampleRate : Z;
  channelData : list Float32Array     (* [getChannelData(c)], one per channel *)
}.

Inductive ContextState : Type := Suspended | Running.

(** The [AudioContext]: its sample rate and its state. *)
Record AudioContext : Type := mkAudioContext {
  ctx_sampleRate : Z;
  ctx_state : ContextState
}.

Definition maxChannels : Z := 32.

(** [ctx.createBuffer(numberOfChannels, length, sampleRate)]: [length] is
    converted to an unsigned long, which truncates and wraps at 2^32;
    NotSupportedError when an argument is zero or outside its nominal
    range. The buffer starts out silent. *)
Definition createBuffer (ctx : AudioContext)
    (numberOfChannels : Z) (length : Q) (sampleRate : Z)
  : Completion AudioBuffer :=
  if (numberOfChannels <? 1) || (maxChannels <? numberOfChannels)
  then Throw NotSupportedError
  else if (sampleRate <? 8000) || (96000 <? sampleRate)
  then Throw NotSupportedError
  else let frames := Qfloor length mod 4294967296 in
       if frames <? 1 then Throw NotSupportedError
       else Return (mkAudioBuffer sampleRate
                      (replicate (Z.to_nat numberOfChannels)
                         (replicate (Z.to_nat frames) (Num 0)))).

End Browser.

Import Browser.

(* ===================================================================== *)
(** * The decoders (the same text in both service files) *)
(* ===================================================================== *)

Module Decoders.

(** [bytes[i] = binaryString.charCodeAt(i)] for every [i] below the
    length. *)
Definition decodeBase64 (base64 : string) : Completion Uint8Array :=
  binaryString ← atob base64;
  Return (map byte_of_ascii (list_ascii_of_string binaryString)).

(** [dataInt16.length / numChannels], a division of numbers (for a channel
    count of zero the quotient is not a finite number; [createBuffer]
    refuses that channel count whatever the length is). *)
Definition frameCount (dataInt16 : list Z) (numChannels : Z) : Q :=
  (inject_Z (Z.of_nat (length dataInt16)) / inject_Z numChannels)%Q.

(** [dataInt16[k] / 32768.0]; reading past the end gives [undefined],
    whose quotient is NaN. *)
Definition sample (dataInt16 : list Z) (k : nat) : number :=
  match dataInt16 !! k with
  | Some v => Num (inject_Z v / 32768)%Q
  | None => NaN
  end.

(** The inner loop, [for (let i = 0; i < frameCount; i++)]: it runs for
    the naturals below [frameCount]; a store past the end of a typed array
    is dropped. *)
Definition fill_channel (dataInt16 : list Z) (numChannels channel : nat)
    (frames : Q) (channelData : Float32Array) : Float32Array :=
  foldl (fun cd i => <[i := sample dataInt16 (i * numChannels + channel)]> cd)
        channelData (seq 0 (Z.to_nat (Qceiling frames))).

Definition decodeAudioData (data : Uint8Array) (ctx : AudioContext)
    (sampleRate numChannels : Z) : Completion AudioBuffer :=
  dataInt16 ← Int16Array data;
  let frames := frameCount dataInt16 numChannels in
  buffer ← createBuffer ctx numChannels frames sampleRate;
  Return (foldl (fun buffer channel =>
                   mkAudioBuffer (Browser.sampleRate buffer)
                     (alter (fill_channel dataInt16 (Z.to_nat numChannels)
                               channel frames)
                            channel (channelData buffer)))
                buffer (seq 0 (Z.to_nat numChannels))).

(** The defaults of the signature: 24000 Hz, one channel. *)
Definition decodeAudioData_default (data : Uint8Array) (ctx : AudioContext)
  : Completion AudioBuffer :=
  decodeAudioData data ctx 24000 1.

(** Three 16-bit samples, 0, 32767 and -32768, low byte first. *)
Definition three_samples : list byte :=
  ["000"; "000"; "255"; "127"; "000"; "128"]%byte.

End Decoders.

Import Decoders.

(* ===================================================================== *)
(** * The [App] component: playback, reading progress, font size *)
(* ===================================================================== *)

Module App.

Inductive AudioState : Type := IDLE | LOADING | PLAYING | ERROR.

#[export] Instance AudioState_eq_dec : EqDecision AudioState.
Proof. solve_decision. Defined.

(** ** The audio graph *)

(** An [AudioBufferSourceNode]: not yet started, playing, stopped by
    [stop()] with its [ended] event still to be dispatched, or ended. *)
Inductive NodeStatus : Type := Unscheduled | Playing | Stopped | Ended.

#[export] Instance NodeStatus_eq_dec : EqDecision NodeStatus.
Proof. solve_decision. Defined.

Record SourceNode : Type := mkSourceNode {
  node_buffer : option AudioBuffer;
  node_connected : bool;              (* [connect(ctx.destination)] was called *)
  node_onended : bool;                (* the [onended] handler is set *)
  node_status : NodeStatus
}.

(** A call of [playAudio] that is suspended at one of its two [await]s,
    or has run to its end. *)
Inductive PlayCall : Type :=
| AwaitSpeech (text : string)                   (* [await generateSpeech(chapterContent)] *)
| AwaitDecode (buffer : Completion AudioBuffer) (* [await decodeAudioData(...)] *)
| Finished.

(** The component state, the refs, and what the page has done so far.
    A handler reads the state that the events before it have left: the
    component is rendered again between two events of the page. *)
Record State : Type := mkState {
  chapterContent : string;
  audioState : AudioState;
  audioContextRef : option AudioContext;
  audioSourceRef : option nat;        (* a node, by its position in [nodes] *)
  nodes : list SourceNode;            (* every source node created so far *)
  calls : list PlayCall;              (* every call of [playAudio] so far *)
  alerts : list string                (* the [alert]s shown *)
}.

Definition initial : State :=
  mkState "" IDLE None None [] [] [].

Definition set_audioState (a : AudioState) (s : State) : State :=
  mkState (chapterContent s) a (audioContextRef s) (audioSourceRef s)
          (nodes s) (calls s) (alerts s).

Definition set_audioContextRef (c : option AudioContext) (s : State) : State :=
  mkState (chapterContent s) (audioState s) c (audioSourceRef s)
          (nodes s) (calls s) (alerts s).

Definition set_audioSourceRef (r : option nat) (s : State) : State :=
  mkState (chapterContent s) (audioState s) (audioContextRef s) r
          (nodes s) (calls s) (alerts s).

Definition set_nodes (n : list SourceNode) (s : State) : State :=
  mkState (chapterContent s) (audioState s) (audioContextRef s)
          (audioSourceRef s) n (calls s) (alerts s).

Definition set_calls (c : list PlayCall) (s : State) : State :=
  mkState (chapterContent s) (audioState s) (audioContextRef s)
          (audioSourceRef s) (nodes s) c (alerts s).

Definition set_chapterContent (t : string) (s : State) : State :=
  mkState t (audioState s) (audioContextRef s) (audioSourceRef s)
          (nodes s) (calls s) (alerts s).

Definition alert (message : string) (s : State) : State :=
  mkState (chapterContent s) (audioState s) (audioContextRef s)
          (audioSourceRef s) (nodes s) (calls s) (alerts s ++ [message]).

(** [node.stop()]: InvalidStateError on a node that was never started;
    a playing node stops; otherwise nothing changes. *)
Definition node_stop (n : nat) (ns : list SourceNode)
  : Completion (list SourceNode) :=
  match ns !! n with
  | Some node =>
      match node_status node with
      | Unscheduled => Throw InvalidStateError
      | Playing =>
          Return (<[n := mkSourceNode (node_buffer node) (node_connected node)
                           (node_onended node) Stopped]> ns)
      | _ => Return ns
      end
  | None => Return ns
  end.

(** [try { audioSourceRef.current.stop(); } catch(e) {}] *)
Definition stop_swallowing (n : nat) (s : State) : State :=
  match node_stop n (nodes s) with
  | Return ns => set_nodes ns s
  | Throw _ => s
  end.

Definition is_playing (node : SourceNode) : bool :=
  bool_decide (node_status node = Playing) && node_connected node.

(** The sessions that sound: the started nodes connected to the
    destination that were neither stopped nor have ended. *)
Definition active_sessions (s : State) : list SourceNode :=
  filter (fun node => is_playing node = true) (nodes s).

Section Handlers.
(** The text of the [alert] of [playAudio]: the one difference between
    the two components here (["音訊生成失敗，請稍後再試。"] and
    ["播放失敗，請確認網路或 API_KEY。"]). *)
Variable playbackAlert : string.

(** [new AudioContext({ sampleRate: 24000 })] is suspended until it is
    told to run; [resume()] makes it run. *)
Definition initAudio (s : State) : State :=
  let s := match audioContextRef s with
           | None => set_audioContextRef (Some (mkAudioContext 24000 Suspended)) s
           | Some _ => s
           end in
  match audioContextRef s with
  | Some (mkAudioContext rate Suspended) =>
      set_audioContextRef (Some (mkAudioContext rate Running)) s
  | _ => s
  end.

(** [catch (error) { setAudioState(ERROR); alert(...) }] *)
Definition playAudio_catch (s : State) : State :=
  alert playbackAlert (set_audioState ERROR s).

(** [playAudio] up to its first [await]: the guard, [LOADING],
    [initAudio], and the call of [generateSpeech]. *)
Definition playAudio (s : State) : Completion State :=
  if bool_decide (chapterContent s = "") || bool_decide (audioState s = LOADING)
  then Return s
  else
    let s := set_audioState LOADING s in
    let s := initAudio s in
    Return (set_calls (calls s ++ [AwaitSpeech (chapterContent s)]) s).

(** [audioContextRef.current!]: the assertion is erased, a method
    called on [null] is a TypeError. *)
Definition the_context (s : State) : Completion AudioContext :=
  match audioContextRef s with
  | Some ctx => Return ctx
  | None => Throw TypeError
  end.

(** [playAudio] from the first [await] to the second: [generateSpeech]
    has settled with [speech]; [decodeBase64] runs and [decodeAudioData]
    is called with the defaults of its signature. *)
Definition playAudio_speech (k : nat) (speech : Completion string) (s : State)
  : Completion State :=
  match calls s !! k with
  | Some (AwaitSpeech _) =>
      match (base64 ← speech; decodeBase64 base64) with
      | Return audioData =>
          Return (set_calls
                    (<[k := AwaitDecode
                              (ctx ← the_context s;
                               decodeAudioData_default audioData ctx)]>
                       (calls s)) s)
      | Throw _ =>
          Return (playAudio_catch (set_calls (<[k := Finished]> (calls s)) s))
      end
  | _ => Return s
  end.

(** [playAudio] after the second [await]: the previous source is
    stopped, a new one is made, connected and started. *)
Definition playAudio_decoded (k : nat) (s : State) : Completion State :=
  match calls s !! k with
  | Some (AwaitDecode decoded) =>
      let s := set_calls (<[k := Finished]> (calls s)) s in
      match decoded with
      | Return buffer =>
          let s := match audioSourceRef s with
                   | Some n => stop_swallowing n s
                   | None => s
                   end in
          match the_context s with
          | Return ctx =>
              let source := length (nodes s) in
              let s := set_nodes
                         (nodes s ++ [mkSourceNode (Some buffer) true true Playing]) s in
              let s := set_audioSourceRef (Some source) s in
              Return (set_audioState PLAYING s)
          | Throw _ => Return (playAudio_catch s)
          end
      | Throw _ => Return (playAudio_catch s)
      end
  | _ => Return s
  end.

Definition stopAudio (s : State) : Completion State :=
  let s := match audioSourceRef s with
           | Some n => set_audioSourceRef None (stop_swallowing n s)
           | None => s
           end in
  Return (set_audioState IDLE s).

(** The [ended] event of node [n]: dispatched once, after the node has
    played to its end or was stopped; [onended] sets [IDLE]. *)
Definition node_ended (n : nat) (s : State) : Completion State :=
  match nodes s !! n with
  | Some node =>
      match node_status node with
      | Playing | Stopped =>
          let s := set_nodes
                     (<[n := mkSourceNode (node_buffer node) (node_connected node)
                               (node_onended node) Ended]> (nodes s)) s in
          Return (if node_onended node then set_audioState IDLE s else s)
      | _ => Return s
      end
  | None => Return s
  end.

(** What can happen to the component, one event at a time (the page
    runs one handler to its next [await] before any other). *)
Inductive Event : Type :=
| PlayAudio                                   (* [playAudio()] *)
| StopAudio                                   (* [stopAudio()] *)
| SpeechSettled (k : nat) (speech : Completion string)
| DecodeSettled (k : nat)
| NodeEnded (n : nat)
| ContentLoaded (text : string).              (* [setChapterContent(text)] *)

Definition handle (e : Event) (s : State) : Completion State :=
  match e with
  | PlayAudio => playAudio s
  | StopAudio => stopAudio s
  | SpeechSettled k speech => playAudio_speech k speech s
  | DecodeSettled k => playAudio_decoded k s
  | NodeEnded n => node_ended n s
  | ContentLoaded text => Return (set_chapterContent text s)
  end.

(** A run of events; a fault of a handler would end it. *)
Fixpoint run (es : list Event) (s : State) : Completion State :=
  match es with
  | [] => Return s
  | e :: r => s' ← handle e s; run r s'
  end.

End Handlers.

(** The two texts of the [alert] of [playAudio]. *)
Definition playbackAlert_services : string := "音訊生成失敗，請稍後再試。".
Definition playbackAlert_gemini : string := "播放失敗，請確認網路或 API_KEY。".

(** ** The invariant of the audio graph *)

(** Whatever plays is the node that [audioSourceRef] holds. *)
Definition only_current (s : State) : Prop :=
  forall n node,
    nodes s !! n = Some node -> node_status node = Playing ->
    audioSourceRef s = Some n.

Definition none_playing (ns : list SourceNode) : Prop :=
  forall n node, ns !! n = Some node -> node_status node <> Playing.

(** What [playAudio] does to the previous source before it makes the new
    one. *)
Definition previous_stopped (s : State) : State :=
  match audioSourceRef s with
  | Some n => stop_swallowing n s
  | None => s
  end.

(** The component after the chapter text ["太初"] has loaded and
    [playAudio] was called once: the call waits for [generateSpeech]. *)
Definition loading_example : State :=
  mkState "太初" LOADING (Some (mkAudioContext 24000 Running)) None []
          [AwaitSpeech "太初"] [].

(** ** Reading progress *)

Abbreviation ReadingProgress := (gmap string (list Z)) (only parsing).

(** The updater that [toggleChapterProgress] gives to [setProgress]. *)
Definition toggleChapterProgress (bookId : string) (chapter : Z)
    (prev : gmap string (list Z)) : gmap string (list Z) :=
  let currentBookChapters := default [] (prev !! bookId) in
  let updated :=
    if bool_decide (chapter ∈ currentBookChapters)
    then filter (fun c => c ≠ chapter) currentBookChapters
    else (currentBookChapters ++ [chapter])%list in
  <[bookId := updated]> prev.

Definition isCompleted (progress : gmap string (list Z))
    (bookId : string) (chapter : Z) : bool :=
  bool_decide (chapter ∈ default [] (progress !! bookId)).

(** ** Font size *)

(** The updater that [adjustFontSize] gives to [setFontSize]. *)
Definition adjustFontSize (delta : Z) (prev : Z) : Z :=
  Z.min 48 (Z.max 14 (prev + delta)).

(** [useState(20)] *)
Definition initialFontSize : Z := 20.

End App.

Import App.

(* ===================================================================== *)
(** * More of the components: loading a chapter, the catalogue, the marks *)
(* ===================================================================== *)

Module Page.

(** The player beside [isLoadingContent]. *)
Record PageState : Type := mkPage {
  player : State;
  isLoadingContent : bool
}.

(** The two texts that [loadContent] shows when [fetchChapterText] throws. *)
Definition loadFallback_services : string := "載入失敗，請檢查網路連線。".
Definition loadFallback_gemini : string := "載入經文失敗，請檢查 API 設定或網路連線。".

Section LoadContent.
Variable loadFallback : string.

(** [loadContent] up to its [await]: [setIsLoadingContent(true)],
    [stopAudio()], and the call of [fetchChapterText]. *)
Definition loadContent_start (p : PageState) : Completion PageState :=
  let p := mkPage (player p) true in
  stopped ← stopAudio (player p);
  Return (mkPage stopped (isLoadingContent p)).

(** [loadContent] after its [await]: [fetchChapterText] has settled with
    [fetched]; [try], [catch] and [finally]. *)
Definition loadContent_settled (fetched : Completion string) (p : PageState)
  : Completion PageState :=
  p ← try_catch
        (text ← fetched;
         Return (mkPage (set_chapterContent text (player p)) (isLoadingContent p)))
        (fun error =>
           Return (mkPage (set_chapterContent loadFallback (player p))
                     (isLoadingContent p)));
  Return (mkPage (player p) false).

End LoadContent.

End Page.

Module Catalog.

(** [BibleBook] of [types.ts], by the fields that the components read:
    [id], [name], [testament] and [chapters]. *)
Record BibleBook : Type := mkBibleBook {
  book_id : string;
  book_name : string;
  testament : string;
  chapters : Z
}.

(** [s.includes(t)]: [t] starts at some position of [s]. *)
Fixpoint includes (s t : string) : bool :=
  String.prefix t s
  || match s with
     | EmptyString => false
     | String _ r => includes r t
     end.

(** [BIBLE_BOOKS.filter(b => b.name.includes(sidebarSearch))] *)
Definition filteredBooks (BIBLE_BOOKS : list BibleBook) (sidebarSearch : string)
  : list BibleBook :=
  filter (fun b => includes (book_name b) sidebarSearch = true) BIBLE_BOOKS.

(** The book buttons of the sidebar in the order of the page: the filtered
    books of the old testament, then those of the new. *)
Definition bookButtons (BIBLE_BOOKS : list BibleBook) (sidebarSearch : string)
  : list BibleBook :=
  (filter (fun b => testament b = "Old") (filteredBooks BIBLE_BOOKS sidebarSearch)
   ++ filter (fun b => testament b = "New")
        (filteredBooks BIBLE_BOOKS sidebarSearch))%list.

(** [Array.from({ length: selectedBook.chapters }, (_, i) => i + 1)] *)
Definition chapterButtons (book : BibleBook) : list Z := seqZ 1 (chapters book).

(** The state that the navigation reads and writes. *)
Record Nav : Type := mkNav {
  selectedBook : BibleBook;
  selectedChapter : Z;
  progress : gmap string (list Z);
  isSidebarOpen : bool;
  sidebarSearch : string
}.

(** What the reader can click or type. *)
Inductive Click : Type :=
| BookButton (i : nat)        (* the [i]-th book button of the sidebar *)
| ChapterButton (i : nat)     (* the [i]-th chapter button of the footer *)
| ChapterMark (i : nat)       (* the mark on the [i]-th chapter button *)
| CurrentMark                 (* the mark of the chapter that is open *)
| MenuButton                  (* [setIsSidebarOpen(true)] *)
| CloseButton                 (* [setIsSidebarOpen(false)] *)
| SearchInput (text : string). (* [setSidebarSearch(e.target.value)] *)

Section Navigation.
Variable BIBLE_BOOKS : list BibleBook.

(** [useState(BIBLE_BOOKS[0])], [useState(1)], [useState({})],
    [useState(false)], [useState('')]. *)
Definition initialNav (first : BibleBook) : Nav := mkNav first 1 ∅ false "".

Definition click (c : Click) (s : Nav) : Nav :=
  match c with
  | BookButton i =>
      (* [setSelectedBook(book); setSelectedChapter(1); setIsSidebarOpen(false)] *)
      match bookButtons BIBLE_BOOKS (sidebarSearch s) !! i with
      | Some book => mkNav book 1 (progress s) false (sidebarSearch s)
      | None => s
      end
  | ChapterButton i =>
      (* [handleChapterClick(chap)], [setSelectedChapter(chap)] *)
      match chapterButtons (selectedBook s) !! i with
      | Some chap =>
          mkNav (selectedBook s) chap (progress s) (isSidebarOpen s) (sidebarSearch s)
      | None => s
      end
  | ChapterMark i =>
      (* [toggleChapterProgress(selectedBook.id, chap, e)] *)
      match chapterButtons (selectedBook s) !! i with
      | Some chap =>
          mkNav (selectedBook s) (selectedChapter s)
                (toggleChapterProgress (book_id (selectedBook s)) chap (progress s))
                (isSidebarOpen s) (sidebarSearch s)
      | None => s
      end
  | CurrentMark =>
      (* [toggleChapterProgress(selectedBook.id, selectedChapter)] *)
      mkNav (selectedBook s) (selectedChapter s)
            (toggleChapterProgress (book_id (selectedBook s)) (selectedChapter s)
               (progress s))
            (isSidebarOpen s) (sidebarSearch s)
  | MenuButton =>
      mkNav (selectedBook s) (selectedChapter s) (progress s) true (sidebarSearch s)
  | CloseButton =>
      mkNav (selectedBook s) (selectedChapter s) (progress s) false (sidebarSearch s)
  | SearchInput text =>
      mkNav (selectedBook s) (selectedChapter s) (progress s) (isSidebarOpen s) text
  end.

Definition clicks (cs : list Click) (s : Nav) : Nav := foldl (fun s c => click c s) s cs.

(** The counter of a book in the sidebar, [(progress[book.id] || []).length]. *)
Definition completedCount (s : Nav) (book : BibleBook) : Z :=
  Z.of_nat (length (default [] (progress s !! book_id book))).

End Navigation.

(** What the navigation keeps: the open book is of the catalogue, the open
    chapter is one of its chapters, and the marks of a book are distinct
    chapters of a book with that id. *)
Definition nav_ok (BIBLE_BOOKS : list BibleBook) (s : Nav) : Prop :=
  selectedBook s ∈ BIBLE_BOOKS /\
  1 <= selectedChapter s <= chapters (selectedBook s) /\
  forall bookId l,
    progress s !! bookId = Some l ->
    NoDup l /\
    exists book, book ∈ BIBLE_BOOKS /\ book_id book = bookId /\
                 Forall (fun c => 1 <= c <= chapters book) l.

(** A catalogue of two books for the examples. *)
Definition two_books : list BibleBook :=
  [mkBibleBook "genesis" "創世記" "Old" 50; mkBibleBook "jude" "猶大書" "New" 1].

End Catalog.

Module PlayerFacts.

(** A call of [playAudio] that has run to its end. *)
Definition is_finished (c : PlayCall) : bool :=
  match c with
  | Finished => true
  | _ => false
  end.



(** Every node was connected, given its handler and started, and the source
    reference is one of the nodes. *)
Definition nodes_started (s : State) : Prop :=
  (forall n node, nodes s !! n = Some node ->
                  node_status node <> Unscheduled /\
                  node_connected node = true /\ node_onended node = true /\
                  is_Some (node_buffer node)) /\
  (forall n, audioSourceRef s = Some n -> (n < length (nodes s))%nat).

(** While the state is [LOADING] a call of [playAudio] is under way. *)
Definition loading_has_call (s : State) : Prop :=
  audioState s = LOADING ->
  exists k c, calls s !! k = Some c /\ is_finished c = false.


(** A state in which source 0 plays and a second call of [playAudio] has
    its audio decoded. *)
Definition replay_example : State :=
  mkState "太初" LOADING (Some (mkAudioContext 24000 Running)) (Some 0%nat)
    [mkSourceNode (Some (mkAudioBuffer 24000 [[Num 0]])) true true Playing]
    [Finished; AwaitDecode (Return (mkAudioBuffer 24000 [[Num 0]]))] [].

End PlayerFacts.

Module Base64Text.

(** The base64 text of a byte sequence without the padding, which the
    decoder of the browser accepts as well. *)
Definition encodeBase64_unpadded (bytes : list byte) : string :=
  string_of_list_ascii (map alphabet_char (sextets_of_bytes (map byte_value bytes))).

(** The characters of a text that [atob] decodes: the text without its
    white space and, when that leaves a multiple of four characters,
    without up to two [=] at its end. *)
Definition significant (data : string) : list ascii :=
  let data := filter (fun c => is_ascii_whitespace c = false)
                     (list_ascii_of_string data) in
  if (Z.of_nat (length data) mod 4 =? 0)%Z then remove_padding data else data.

End Base64Text.

Module Steps.

(** A sequence of marks, each a call of [toggleChapterProgress]. *)
Definition toggles (ts : list (string * Z)) (progress : gmap string (list Z))
  : gmap string (list Z) :=
  foldl (fun progress t => toggleChapterProgress t.1 t.2 progress) progress ts.

(** How often a chapter of a book was marked. *)
Definition times_toggled (ts : list (string * Z)) (bookId : string) (chapter : Z)
  : nat :=
  length (filter (fun t => t = (bookId, chapter)) ts).

(** A sequence of presses of the two font buttons, [adjustFontSize(-2)] and
    [adjustFontSize(2)]. *)
Definition is_button_delta (delta : Z) : Prop := delta = -2 \/ delta = 2.

Definition fontSize_after (deltas : list Z) (size : Z) : Z :=
  foldl (fun prev delta => adjustFontSize delta prev) size deltas.

End Steps.

Import Page Catalog PlayerFacts Base64Text Steps.

(* ===================================================================== *)
(** * Properties of the services *)
(* ===================================================================== *)

Section ServiceProperties.

Variable API_KEY : option string.
Variable generateContent : Endpoint.

Lemma getAiClient_missing :
  Gemini.key_missing API_KEY ->
  Gemini.getAiClient API_KEY = Throw (Error "API_KEY_MISSING").
Proof.
  unfold Gemini.getAiClient.
  intros [-> | [-> | ->]]; reflexivity.
Qed.

Lemma getAiClient_present :
  ~ Gemini.key_missing API_KEY ->
  Gemini.getAiClient API_KEY = Return (mkClient API_KEY).
Proof.
  unfold Gemini.getAiClient, Gemini.key_missing. intros Hk.
  destruct API_KEY as [k|]; [|tauto].
  destruct (decide (k = "")) as [->|Hne]; [tauto|].
  assert (falsy (Some k) = false) as -> by (destruct k; [congruence|reflexivity]).
  case_bool_decide; [tauto | reflexivity].
Qed.

Lemma key_missing_dec : Gemini.key_missing API_KEY \/ ~ Gemini.key_missing API_KEY.
Proof.
  unfold Gemini.key_missing.
  destruct (decide (API_KEY = None)); [tauto|].
  destruct (decide (API_KEY = Some "")); [tauto|].
  destruct (decide (API_KEY = Some "undefined")); tauto.
Qed.

Lemma or_else_falsy o d : falsy o = true -> or_else o d = d.
Proof. destruct o as [[|]|]; simpl; congruence. Qed.

Lemma or_else_truthy o d : falsy o = false -> o = Some (or_else o d).
Proof. destruct o as [[|]|]; simpl; congruence. Qed.

End ServiceProperties.

Section FetchChapterText.

Variable API_KEY : option string.
Variable generateContent : Endpoint.
Variables (book : string) (chapter : Z).

(** C1 (as amended): [fetchChapterText] of the service with [getAiClient]
    always returns a string, the failure text when the credential is
    missing or the collaborator rejects, the other fallback text when the
    response text is empty, the response text otherwise; [fetchChapterText]
    of [services/geminiService.ts] returns its fallback text for an empty
    response text, and a rejection of the collaborator is its own
    rejection. *)
Theorem fetchChapterText_fallback :
  (exists t,
      Gemini.fetchChapterText API_KEY generateContent book chapter = Return t /\
      (Gemini.key_missing API_KEY -> t = "讀取失敗，請確認 API Key 是否有效。") /\
      (forall e,
          generateContent (mkClient API_KEY) (Gemini.chapterRequest book chapter)
          = Throw e ->
          t = "讀取失敗，請確認 API Key 是否有效。") /\
      (forall r,
          ~ Gemini.key_missing API_KEY ->
          generateContent (mkClient API_KEY) (Gemini.chapterRequest book chapter)
          = Return r ->
          (falsy (text r) = true -> t = "無法獲取經文。") /\
          (falsy (text r) = false -> text r = Some t))) /\
  (forall e,
      generateContent (mkClient API_KEY) (Services.chapterRequest book chapter)
      = Throw e ->
      Services.fetchChapterText API_KEY generateContent book chapter = Throw e) /\
  (forall r,
      generateContent (mkClient API_KEY) (Services.chapterRequest book chapter)
      = Return r ->
      exists t,
        Services.fetchChapterText API_KEY generateContent book chapter = Return t /\
        (falsy (text r) = true -> t = "無法獲取經文內容，請稍後再試。") /\
        (falsy (text r) = false -> text r = Some t)).
Proof.
  split; [|split].
  - unfold Gemini.fetchChapterText.
    destruct (key_missing_dec API_KEY) as [Hm|Hp].
    + rewrite (getAiClient_missing _ Hm). simpl.
      eexists; split; [reflexivity|]. repeat split; intros; tauto.
    + rewrite (getAiClient_present _ Hp). simpl.
      destruct (generateContent _ _) as [r|e] eqn:Hg; simpl.
      * eexists; split; [reflexivity|].
        split; [tauto|]. split; [discriminate|].
        intros r' _ [= <-]. split.
        -- apply or_else_falsy.
        -- apply or_else_truthy.
      * eexists; split; [reflexivity|].
        split; [tauto|]. split; [reflexivity|]. discriminate.
  - intros e He. unfold Services.fetchChapterText. simpl. rewrite He. reflexivity.
  - intros r Hr. unfold Services.fetchChapterText. simpl. rewrite Hr. simpl.
    eexists; split; [reflexivity|]. split.
    + apply or_else_falsy.
    + apply or_else_truthy.
Qed.

End FetchChapterText.

(** C1, as stated, fails on [services/geminiService.ts]: a rejection of the
    collaborator (here a 503) is not turned into a string. *)
Lemma fetchChapterText_propagates :
  Services.fetchChapterText (Some "key") (fun _ _ => Throw (ApiError 503)) "創世記" 1
  = Throw (ApiError 503) /\
  ~ exists t,
      Services.fetchChapterText (Some "key") (fun _ _ => Throw (ApiError 503)) "創世記" 1
      = Return t.
Proof.
  split; [reflexivity|]. intros [t Ht]. discriminate Ht.
Qed.

Section GenerateSpeech.

Variable API_KEY : option string.
Variable generateContent : Endpoint.
Variable text : string.

(** C5 (as amended): both [generateSpeech] return the inline data of the
    first part of the first candidate when it is there and not empty, and
    throw their error when it is not (no candidate, no content, no part, a
    first part without inline data, or empty data); a rejection of the
    collaborator is the rejection of [generateSpeech], and so is the
    missing credential of [getAiClient]. *)
Theorem generateSpeech_first_part :
  (forall r,
      generateContent (mkClient API_KEY) (Services.speechRequest text) = Return r ->
      (forall d, first_part_data r = Some d -> d <> "" ->
                 Services.generateSpeech API_KEY generateContent text = Return d) /\
      (first_part_data r = None \/ first_part_data r = Some "" ->
       Services.generateSpeech API_KEY generateContent text
       = Throw (Error "Audio generation failed"))) /\
  (forall e,
      generateContent (mkClient API_KEY) (Services.speechRequest text) = Throw e ->
      Services.generateSpeech API_KEY generateContent text = Throw e) /\
  (forall r,
      ~ Gemini.key_missing API_KEY ->
      generateContent (mkClient API_KEY) (Gemini.speechRequest text) = Return r ->
      (forall d, first_part_data r = Some d -> d <> "" ->
                 Gemini.generateSpeech API_KEY generateContent text = Return d) /\
      (first_part_data r = None \/ first_part_data r = Some "" ->
       Gemini.generateSpeech API_KEY generateContent text
       = Throw (Error "AUDIO_DATA_EMPTY"))) /\
  (forall e,
      ~ Gemini.key_missing API_KEY ->
      generateContent (mkClient API_KEY) (Gemini.speechRequest text) = Throw e ->
      Gemini.generateSpeech API_KEY generateContent text = Throw e) /\
  (Gemini.key_missing API_KEY ->
   Gemini.generateSpeech API_KEY generateContent text
   = Throw (Error "API_KEY_MISSING")).
Proof.
  split; [|split; [|split; [|split]]].
  - intros r Hr. unfold Services.generateSpeech. simpl. rewrite Hr. simpl. split.
    + intros d Hd Hne. rewrite Hd. destruct d; [congruence | reflexivity].
    + intros [-> | ->]; reflexivity.
  - intros e He. unfold Services.generateSpeech. simpl. rewrite He. reflexivity.
  - intros r Hk Hr. unfold Gemini.generateSpeech.
    rewrite (getAiClient_present _ Hk). simpl. rewrite Hr. simpl. split.
    + intros d Hd Hne. rewrite Hd. destruct d; [congruence | reflexivity].
    + intros [-> | ->]; reflexivity.
  - intros e Hk He. unfold Gemini.generateSpeech.
    rewrite (getAiClient_present _ Hk). simpl. rewrite He. reflexivity.
  - intros Hk. unfold Gemini.generateSpeech.
    rewrite (getAiClient_missing _ Hk). reflexivity.
Qed.

End GenerateSpeech.

(** C5, as stated, fails: the first candidate of this response carries an
    inline payload, and both [generateSpeech] throw. *)
Lemma generateSpeech_second_part_ignored :
  first_candidate_payload audio_in_second_part = Some "QUJD" /\
  Services.generateSpeech (Some "key") (fun _ _ => Return audio_in_second_part) "太初"
  = Throw (Error "Audio generation failed") /\
  Gemini.generateSpeech (Some "key") (fun _ _ => Return audio_in_second_part) "太初"
  = Throw (Error "AUDIO_DATA_EMPTY").
Proof. repeat split; reflexivity. Qed.

(* ===================================================================== *)
(** * Properties of the reading progress and of the font size *)
(* ===================================================================== *)

Section Progress.

Implicit Types (progress : gmap string (list Z)) (bookId : string) (chapter : Z).

Lemma isCompleted_toggle_same progress bookId chapter :
  isCompleted (toggleChapterProgress bookId chapter progress) bookId chapter
  = negb (isCompleted progress bookId chapter).
Proof.
  unfold isCompleted, toggleChapterProgress.
  rewrite lookup_insert_eq. simpl.
  destruct (decide (chapter ∈ default [] (progress !! bookId))) as [Hin|Hout].
  - rewrite !(bool_decide_eq_true_2 _ Hin). simpl.
    apply bool_decide_eq_false_2.
    rewrite list_elem_of_filter. tauto.
  - rewrite !(bool_decide_eq_false_2 _ Hout). simpl.
    apply bool_decide_eq_true_2.
    rewrite elem_of_app, list_elem_of_singleton. tauto.
Qed.

Lemma isCompleted_toggle_other progress bookId chapter b c :
  (b, c) <> (bookId, chapter) ->
  isCompleted (toggleChapterProgress bookId chapter progress) b c
  = isCompleted progress b c.
Proof.
  intros Hne. unfold isCompleted, toggleChapterProgress.
  destruct (decide (b = bookId)) as [->|Hb].
  - assert (c <> chapter) as Hc by congruence.
    rewrite lookup_insert_eq. simpl.
    apply bool_decide_ext.
    case_bool_decide.
    + rewrite list_elem_of_filter. tauto.
    + rewrite elem_of_app, list_elem_of_singleton. tauto.
  - rewrite lookup_insert_ne by congruence. reflexivity.
Qed.

(** C6: [toggleChapterProgress] flips whether the chapter is among the
    completed chapters of the book (it is added when absent, removed when
    present), leaves every other chapter and book as it was, and applied
    twice gives back the membership it started from. *)
Theorem toggleChapterProgress_flips progress bookId chapter :
  isCompleted (toggleChapterProgress bookId chapter progress) bookId chapter
  = negb (isCompleted progress bookId chapter) /\
  (forall b c, (b, c) <> (bookId, chapter) ->
               isCompleted (toggleChapterProgress bookId chapter progress) b c
               = isCompleted progress b c) /\
  (forall b c,
      isCompleted (toggleChapterProgress bookId chapter
                     (toggleChapterProgress bookId chapter progress)) b c
      = isCompleted progress b c).
Proof.
  split; [apply isCompleted_toggle_same|].
  split; [intros; by apply isCompleted_toggle_other|].
  intros b c. destruct (decide ((b, c) = (bookId, chapter))) as [[= -> ->]|Hne].
  - rewrite !isCompleted_toggle_same. apply negb_involutive.
  - rewrite !isCompleted_toggle_other by done. reflexivity.
Qed.

(** The scenario of the specification. *)
Example toggle_scenario :
  let progress : gmap string (list Z) := {[ "genesis" := [1; 2] ]} in
  toggleChapterProgress "genesis" 2 progress = {[ "genesis" := [1] ]} /\
  toggleChapterProgress "genesis" 3 (toggleChapterProgress "genesis" 2 progress)
  = {[ "genesis" := [1; 3] ]}.
Proof. split; by vm_compute. Qed.

End Progress.

Section FontSize.

Lemma adjustFontSize_clamped (delta prev : Z) :
  14 <= adjustFontSize delta prev <= 48.
Proof. unfold adjustFontSize. lia. Qed.

(** C10: from a font size between 14 and 48, [adjustFontSize] with any
    delta gives a size between 14 and 48, and so does any sequence of
    adjustments. *)
Theorem fontSize_stays_in_range (size : Z) (deltas : list Z) :
  14 <= size <= 48 ->
  (forall delta, 14 <= adjustFontSize delta size <= 48) /\
  14 <= foldl (fun prev delta => adjustFontSize delta prev) size deltas <= 48.
Proof.
  intros Hsize. split; [intros; apply adjustFontSize_clamped|].
  revert size Hsize. induction deltas as [|d ds IH]; intros size Hsize; simpl.
  - exact Hsize.
  - apply IH, adjustFontSize_clamped.
Qed.

Lemma fontSize_stays_in_range_witness :
  14 <= initialFontSize <= 48 /\
  (forall delta, 14 <= adjustFontSize delta initialFontSize <= 48) /\
  14 <= foldl (fun prev delta => adjustFontSize delta prev) initialFontSize
          [2; 2; 2; 2; 2; 2; 2; 2; 2; 2; 2; 2; 2; 2; 2; -2] <= 48.
Proof.
  split; [unfold initialFontSize; lia|].
  apply (fontSize_stays_in_range initialFontSize); unfold initialFontSize; lia.
Defined.

End FontSize.

(* ===================================================================== *)
(** * Properties of the playback controller *)
(* ===================================================================== *)

Section Playback.

Variable playbackAlert : string.

Lemma only_current_initial : only_current initial.
Proof. intros n node Hn. simpl in Hn. rewrite lookup_nil in Hn. discriminate. Qed.

Lemma is_playing_status node : is_playing node = true -> node_status node = Playing.
Proof.
  unfold is_playing. intros H. apply andb_true_iff in H as [H _].
  by apply bool_decide_eq_true_1 in H.
Qed.

Lemma none_playing_filter ns :
  none_playing ns -> filter (fun node => is_playing node = true) ns = [].
Proof.
  induction ns as [|x r IH]; intros Hn; [reflexivity|].
  rewrite filter_cons. destruct (decide (is_playing x = true)) as [Hx|Hx].
  - exfalso. apply (Hn 0%nat x); [reflexivity | by apply is_playing_status].
  - apply IH. intros n node Hl. apply (Hn (S n) node Hl).
Qed.

(** At most one node plays when all that plays is one position. *)
Lemma one_position_filter ns (k : nat) :
  (forall n node, ns !! n = Some node -> node_status node = Playing -> n = k) ->
  (length (filter (fun node => is_playing node = true) ns) <= 1)%nat.
Proof.
  revert k. induction ns as [|x r IH]; intros k Hk; [simpl; lia|].
  rewrite filter_cons. destruct (decide (is_playing x = true)) as [Hx|Hx].
  - rewrite none_playing_filter; [simpl; lia|].
    intros n node Hl Hp.
    pose proof (Hk 0%nat x eq_refl (is_playing_status _ Hx)) as H0.
    pose proof (Hk (S n) node Hl Hp) as HS. lia.
  - destruct k as [|k].
    + rewrite none_playing_filter; [simpl; lia|].
      intros n node Hl Hp. pose proof (Hk (S n) node Hl Hp). lia.
    + apply (IH k). intros n node Hl Hp.
      pose proof (Hk (S n) node Hl Hp). lia.
Qed.

Lemma only_current_at_most_one s :
  only_current s -> (length (active_sessions s) <= 1)%nat.
Proof.
  intros Hs. unfold active_sessions.
  destruct (audioSourceRef s) as [k|] eqn:Hr.
  - apply (one_position_filter _ k). intros n node Hl Hp.
    pose proof (Hs n node Hl Hp) as H. congruence.
  - rewrite none_playing_filter; [simpl; lia|].
    intros n node Hl Hp. pose proof (Hs n node Hl Hp) as H. congruence.
Qed.

(** [stop()] on the current node leaves nothing playing. *)
Lemma stop_swallowing_none_playing s n :
  only_current s -> audioSourceRef s = Some n ->
  none_playing (nodes (stop_swallowing n s)).
Proof.
  intros Hs Hr m node Hm Hp.
  unfold stop_swallowing, node_stop in Hm.
  destruct (nodes s !! n) as [cur|] eqn:Hn.
  - destruct (node_status cur) eqn:Hst; simpl in Hm.
    + pose proof (Hs m node Hm Hp) as H. congruence.
    + destruct (decide (m = n)) as [->|Hne].
      * rewrite list_lookup_insert_eq in Hm by (by eapply lookup_lt_Some).
        injection Hm as <-. simpl in Hp. discriminate.
      * rewrite list_lookup_insert_ne in Hm by congruence.
        pose proof (Hs m node Hm Hp) as H. congruence.
    + pose proof (Hs m node Hm Hp) as H. congruence.
    + pose proof (Hs m node Hm Hp) as H. congruence.
  - simpl in Hm. pose proof (Hs m node Hm Hp) as H. congruence.
Qed.

Lemma stop_swallowing_fields s n :
  let s' := stop_swallowing n s in
  chapterContent s' = chapterContent s /\ audioState s' = audioState s /\
  audioContextRef s' = audioContextRef s /\ audioSourceRef s' = audioSourceRef s /\
  calls s' = calls s /\ alerts s' = alerts s /\
  length (nodes s') = length (nodes s).
Proof.
  unfold stop_swallowing, node_stop.
  destruct (nodes s !! n) as [cur|]; [destruct (node_status cur)|]; simpl;
    rewrite ?length_insert; tauto.
Qed.

Lemma previous_stopped_none_playing s :
  only_current s -> none_playing (nodes (previous_stopped s)).
Proof.
  intros Hs. unfold previous_stopped.
  destruct (audioSourceRef s) as [n|] eqn:Hr.
  - by apply stop_swallowing_none_playing.
  - intros m node Hm Hp. pose proof (Hs m node Hm Hp). congruence.
Qed.

End Playback.

Section PlaybackSteps.

Variable playbackAlert : string.

Lemma only_current_ext s s' :
  nodes s' = nodes s -> audioSourceRef s' = audioSourceRef s ->
  only_current s -> only_current s'.
Proof. unfold only_current. intros -> ->. auto. Qed.

Lemma none_playing_only_current s : none_playing (nodes s) -> only_current s.
Proof. intros Hn n node Hl Hp. destruct (Hn n node Hl Hp). Qed.

Lemma initAudio_fields s :
  let s' := initAudio s in
  chapterContent s' = chapterContent s /\ audioState s' = audioState s /\
  audioSourceRef s' = audioSourceRef s /\ nodes s' = nodes s /\
  calls s' = calls s /\ alerts s' = alerts s /\
  exists rate, audioContextRef s' = Some (mkAudioContext rate Running).
Proof.
  unfold initAudio.
  destruct (audioContextRef s) as [[rate []]|] eqn:Hc; simpl; rewrite ?Hc; simpl;
    repeat split; eauto.
Qed.

Lemma playAudio_guarded s :
  chapterContent s = "" \/ audioState s = LOADING -> playAudio s = Return s.
Proof.
  intros Hg. unfold playAudio.
  destruct Hg as [-> | ->].
  - reflexivity.
  - rewrite (bool_decide_eq_true_2 (LOADING = LOADING)) by reflexivity.
    by rewrite orb_true_r.
Qed.

Lemma playAudio_started s :
  chapterContent s <> "" -> audioState s <> LOADING ->
  playAudio s
  = Return (set_calls (calls s ++ [AwaitSpeech (chapterContent s)])
              (initAudio (set_audioState LOADING s))).
Proof.
  intros Hc Ha. unfold playAudio.
  rewrite (bool_decide_eq_false_2 _ Hc), (bool_decide_eq_false_2 _ Ha). simpl.
  pose proof (initAudio_fields (set_audioState LOADING s)) as (Hcc & _ & _ & _ & Hcl & _).
  rewrite Hcc, Hcl. reflexivity.
Qed.

Lemma playAudio_only_current s s' :
  only_current s -> playAudio s = Return s' -> only_current s'.
Proof.
  intros Hs. unfold playAudio.
  destruct (_ || _); intros [= <-]; [exact Hs|].
  pose proof (initAudio_fields (set_audioState LOADING s)) as (_ & _ & Hr & Hn & _).
  eapply only_current_ext; [| |exact Hs]; simpl; [exact Hn | exact Hr].
Qed.

Lemma stopAudio_only_current s s' :
  only_current s -> stopAudio s = Return s' -> only_current s'.
Proof.
  intros Hs. unfold stopAudio. intros [= <-].
  destruct (audioSourceRef s) as [n|] eqn:Hr.
  - apply none_playing_only_current. simpl.
    by apply stop_swallowing_none_playing.
  - eapply only_current_ext; [| |exact Hs]; reflexivity.
Qed.

Lemma playAudio_speech_only_current k speech s s' :
  only_current s -> playAudio_speech playbackAlert k speech s = Return s' ->
  only_current s'.
Proof.
  intros Hs. unfold playAudio_speech.
  destruct (calls s !! k) as [[t|b|]|]; try (intros [= <-]; exact Hs).
  destruct (speech ≫= _); intros [= <-];
    (eapply only_current_ext; [| |exact Hs]; reflexivity).
Qed.

Lemma playAudio_decoded_only_current k s s' :
  only_current s -> playAudio_decoded playbackAlert k s = Return s' ->
  only_current s'.
Proof.
  intros Hs. unfold playAudio_decoded.
  destruct (calls s !! k) as [[t|[buffer|e]|]|]; try (intros [= <-]; exact Hs).
  set (s0 := set_calls _ s).
  assert (only_current s0) as Hs0
      by (eapply only_current_ext; [| |exact Hs]; reflexivity).
  change (match audioSourceRef s0 with
          | Some n => stop_swallowing n s0
          | None => s0
          end) with (previous_stopped s0).
  pose proof (previous_stopped_none_playing s0 Hs0) as Hnone.
  destruct (the_context _); intros [= <-].
  - intros n node Hl Hp. simpl in *.
    apply lookup_app_Some in Hl as [Hl | [Hge Hl]].
    + destruct (Hnone n node Hl Hp).
    + apply list_lookup_singleton_Some in Hl as [Hz _].
      f_equal. lia.
  - apply none_playing_only_current. exact Hnone.
Qed.

Lemma node_ended_only_current n s s' :
  only_current s -> node_ended n s = Return s' -> only_current s'.
Proof.
  intros Hs. unfold node_ended.
  destruct (nodes s !! n) as [cur|] eqn:Hn; [|intros [= <-]; exact Hs].
  assert (forall b : bool,
             only_current
               (let s1 := set_nodes
                            (<[n := mkSourceNode (node_buffer cur) (node_connected cur)
                                      (node_onended cur) Ended]> (nodes s)) s in
                if b then set_audioState IDLE s1 else s1)) as Hended.
  { intros b m node Hl Hp.
    assert (<[n := mkSourceNode (node_buffer cur) (node_connected cur)
                     (node_onended cur) Ended]> (nodes s) !! m = Some node) as Hl'
        by (destruct b; exact Hl).
    assert (audioSourceRef s = Some m) as Hgoal.
    { destruct (decide (m = n)) as [->|Hne].
      - rewrite list_lookup_insert_eq in Hl' by (by eapply lookup_lt_Some).
        injection Hl' as <-. simpl in Hp. discriminate.
      - rewrite list_lookup_insert_ne in Hl' by congruence.
        exact (Hs m node Hl' Hp). }
    destruct b; exact Hgoal. }
  destruct (node_status cur); intros [= <-]; try exact Hs; apply Hended.
Qed.

Lemma handle_returns e s : exists s', handle playbackAlert e s = Return s'.
Proof.
  destruct e as [| |k speech|k|n|t]; simpl.
  - unfold playAudio. destruct (_ || _); eauto.
  - unfold stopAudio. eauto.
  - unfold playAudio_speech.
    destruct (calls s !! k) as [[?|?|]|]; eauto.
    destruct (speech ≫= _); eauto.
  - unfold playAudio_decoded.
    destruct (calls s !! k) as [[?|[?|?]|]|]; eauto.
    destruct (the_context _); eauto.
  - unfold node_ended.
    destruct (nodes s !! n) as [cur|]; eauto.
    destruct (node_status cur); eauto.
  - eauto.
Qed.

Lemma handle_only_current e s s' :
  only_current s -> handle playbackAlert e s = Return s' -> only_current s'.
Proof.
  destruct e as [| |k speech|k|n|t]; simpl.
  - apply playAudio_only_current.
  - apply stopAudio_only_current.
  - apply playAudio_speech_only_current.
  - apply playAudio_decoded_only_current.
  - apply node_ended_only_current.
  - intros Hs [= <-]. eapply only_current_ext; [| |exact Hs]; reflexivity.
Qed.

Lemma run_only_current es s :
  only_current s ->
  exists s', run playbackAlert es s = Return s' /\ only_current s'.
Proof.
  revert s. induction es as [|e es IH]; intros s Hs; simpl.
  - eauto.
  - destruct (handle_returns e s) as [s1 H1]. rewrite H1. simpl.
    apply IH. eapply handle_only_current; eauto.
Qed.

End PlaybackSteps.

Section PlaybackClaims.

Variable playbackAlert : string.

(** The last part of [playAudio]: the source that was current no longer
    plays, and the new source is the one session. *)
Lemma playAudio_decoded_starts k s buffer ctx :
  only_current s ->
  calls s !! k = Some (AwaitDecode (Return buffer)) ->
  audioContextRef s = Some ctx ->
  exists s',
    playAudio_decoded playbackAlert k s = Return s' /\
    active_sessions s' = [mkSourceNode (Some buffer) true true Playing] /\
    audioState s' = PLAYING /\
    audioSourceRef s' = Some (length (nodes s)) /\
    alerts s' = alerts s /\
    calls s' = <[k := Finished]> (calls s) /\
    (forall n node, (n < length (nodes s))%nat ->
                    nodes s' !! n = Some node -> node_status node <> Playing).
Proof.
  intros Hs Hk Hc. unfold playAudio_decoded. rewrite Hk.
  set (s0 := set_calls _ s).
  assert (only_current s0) as Hs0
      by (eapply only_current_ext; [| |exact Hs]; reflexivity).
  change (match audioSourceRef s0 with
          | Some n => stop_swallowing n s0
          | None => s0
          end) with (previous_stopped s0).
  pose proof (previous_stopped_none_playing s0 Hs0) as Hnone.
  assert (chapterContent (previous_stopped s0) = chapterContent s /\
          audioContextRef (previous_stopped s0) = audioContextRef s /\
          alerts (previous_stopped s0) = alerts s /\
          calls (previous_stopped s0) = <[k := Finished]> (calls s) /\
          length (nodes (previous_stopped s0)) = length (nodes s))
    as (Hcc & Hctx & Hal & Hcalls & Hlen).
  { unfold previous_stopped. destruct (audioSourceRef s0) as [n|].
    - pose proof (stop_swallowing_fields s0 n) as (? & ? & ? & ? & ? & ? & ?).
      repeat split; assumption.
    - repeat split; reflexivity. }
  unfold the_context. rewrite Hctx, Hc.
  eexists; split; [reflexivity|]. simpl.
  repeat split.
  - unfold active_sessions. simpl. rewrite filter_app.
    rewrite (none_playing_filter _ Hnone). reflexivity.
  - by rewrite Hlen.
  - exact Hal.
  - exact Hcalls.
  - intros n node Hlt Hl.
    rewrite lookup_app_l in Hl by lia. exact (Hnone n node Hl).
Qed.

(** C3: [playAudio] does nothing when the chapter text is empty or the
    state is [LOADING]; after any events at all, at most one session plays;
    when [playAudio] starts a source, the source that was current has been
    stopped and the new one is the only session; and two calls of
    [playAudio] in a row, the first of which succeeds, leave exactly one
    session. *)
Theorem one_session_at_a_time :
  (forall s, chapterContent s = "" \/ audioState s = LOADING ->
             playAudio s = Return s) /\
  (forall es, exists s,
        run playbackAlert es initial = Return s /\
        (length (active_sessions s) <= 1)%nat) /\
  (forall k s buffer ctx,
      only_current s ->
      calls s !! k = Some (AwaitDecode (Return buffer)) ->
      audioContextRef s = Some ctx ->
      exists s',
        playAudio_decoded playbackAlert k s = Return s' /\
        active_sessions s' = [mkSourceNode (Some buffer) true true Playing] /\
        (forall n node, (n < length (nodes s))%nat ->
                        nodes s' !! n = Some node -> node_status node <> Playing)) /\
  (forall s base64 audioData buffer,
      only_current s ->
      chapterContent s <> "" -> audioState s <> LOADING ->
      decodeBase64 base64 = Return audioData ->
      (forall ctx, decodeAudioData_default audioData ctx = Return buffer) ->
      let k := length (calls s) in
      exists s1 s',
        playAudio s = Return s1 /\ playAudio s1 = Return s1 /\
        run playbackAlert
            [PlayAudio; PlayAudio; SpeechSettled k (Return base64); DecodeSettled k] s
        = Return s' /\
        length (calls s') = S k /\
        active_sessions s' = [mkSourceNode (Some buffer) true true Playing] /\
        audioState s' = PLAYING).
Proof.
  split; [exact playAudio_guarded|].
  split.
  { intros es.
    destruct (run_only_current playbackAlert es initial only_current_initial)
      as (s & Hrun & Hs).
    exists s. split; [exact Hrun | by apply only_current_at_most_one]. }
  split.
  { intros k s buffer ctx Hs Hk Hc.
    destruct (playAudio_decoded_starts k s buffer ctx Hs Hk Hc)
      as (s' & Hd & Ha & _ & _ & _ & _ & Hprev).
    exists s'. auto. }
  intros s base64 audioData buffer Hs Hc Ha Hb Hd k.
  pose proof (playAudio_started s Hc Ha) as H1.
  set (s1 := set_calls (calls s ++ [AwaitSpeech (chapterContent s)])
               (initAudio (set_audioState LOADING s))) in *.
  pose proof (initAudio_fields (set_audioState LOADING s))
    as (Hcc & Hst & Hr & Hn & Hcl & Hal & rate & Hctx).
  assert (playAudio s1 = Return s1) as H2.
  { apply playAudio_guarded. right. subst s1. simpl. exact Hst. }
  assert (only_current s1) as Hs1.
  { eapply playAudio_only_current; [exact Hs | exact H1]. }
  assert (calls s1 = (calls s ++ [AwaitSpeech (chapterContent s)])%list) as Hcalls1.
  { reflexivity. }
  assert (calls s1 !! k = Some (AwaitSpeech (chapterContent s))) as Hk1.
  { rewrite Hcalls1. subst k. rewrite lookup_app_r by lia.
    by rewrite Nat.sub_diag. }
  assert (the_context s1 = Return (mkAudioContext rate Running)) as Hctx1.
  { unfold the_context. subst s1. simpl. by rewrite Hctx. }
  set (s2 := set_calls (<[k := AwaitDecode (Return buffer)]> (calls s1)) s1).
  assert (playAudio_speech playbackAlert k (Return base64) s1 = Return s2) as H3.
  { unfold playAudio_speech. rewrite Hk1. simpl. rewrite Hb. rewrite Hctx1. simpl.
    rewrite Hd. reflexivity. }
  assert ((k < length (calls s1))%nat) as Hlt.
  { rewrite Hcalls1, length_app. simpl. lia. }
  assert (only_current s2) as Hs2.
  { eapply only_current_ext; [| |exact Hs1]; reflexivity. }
  assert (calls s2 !! k = Some (AwaitDecode (Return buffer))) as Hk2.
  { subst s2. simpl. by rewrite list_lookup_insert_eq. }
  assert (audioContextRef s2 = Some (mkAudioContext rate Running)) as Hctx2.
  { subst s2 s1. simpl. exact Hctx. }
  destruct (playAudio_decoded_starts k s2 buffer _ Hs2 Hk2 Hctx2)
    as (s' & H4 & Hact & Hstate & _ & _ & Hcalls' & _).
  exists s1, s'. split; [exact H1|]. split; [exact H2|].
  split.
  { simpl. rewrite H1. simpl. rewrite H2. simpl. rewrite H3. simpl.
    rewrite H4. reflexivity. }
  split; [|split; assumption].
  rewrite Hcalls', length_insert. unfold s2, set_calls. simpl.
  rewrite length_insert, length_app. simpl. lia.
Qed.

End PlaybackClaims.

Section StopAndFailure.

Variable playbackAlert : string.

(** C7: [stopAudio] returns from every state, never throws, and leaves the
    source reference cleared and the state [IDLE]; nothing plays afterwards
    when all that played was the current source; the text, the context, the
    pending calls and the alerts are untouched; with no current source the
    only change is [IDLE]. *)
Theorem stopAudio_idle (s : State) :
  exists s',
    stopAudio s = Return s' /\
    audioSourceRef s' = None /\ audioState s' = IDLE /\
    chapterContent s' = chapterContent s /\
    audioContextRef s' = audioContextRef s /\
    calls s' = calls s /\ alerts s' = alerts s /\
    length (nodes s') = length (nodes s) /\
    (only_current s -> active_sessions s' = []) /\
    (audioSourceRef s = None -> s' = set_audioState IDLE s).
Proof.
  unfold stopAudio. eexists; split; [reflexivity|].
  destruct (audioSourceRef s) as [n|] eqn:Hr; simpl.
  - pose proof (stop_swallowing_fields s n) as (? & ? & ? & ? & ? & ? & ?).
    repeat split; try assumption; try discriminate.
    intros Hs. unfold active_sessions. simpl.
    apply none_playing_filter. by apply stop_swallowing_none_playing.
  - repeat split; try assumption.
    intros Hs. unfold active_sessions. simpl.
    apply none_playing_filter. intros m node Hm Hp.
    pose proof (Hs m node Hm Hp). congruence.
Qed.

(** C8: when the speech fetch fails, or [decodeBase64] throws, the call of
    [playAudio] ends with the state [ERROR] and one more alert, and the
    source nodes, the source reference and the audio context are as they
    were; when [decodeAudioData] rejects, the same holds once its [await]
    is over, and until then nothing but the pending call has changed. *)
Theorem playAudio_failure (s : State) (k : nat) (text : string) :
  calls s !! k = Some (AwaitSpeech text) ->
  (forall speech,
      (exists e, speech = Throw e) \/
      (exists base64 e, speech = Return base64 /\ decodeBase64 base64 = Throw e) ->
      exists s',
        playAudio_speech playbackAlert k speech s = Return s' /\
        audioState s' = ERROR /\
        alerts s' = (alerts s ++ [playbackAlert])%list /\
        nodes s' = nodes s /\ audioSourceRef s' = audioSourceRef s /\
        audioContextRef s' = audioContextRef s /\
        calls s' = <[k := Finished]> (calls s)) /\
  (forall base64 audioData e,
      decodeBase64 base64 = Return audioData ->
      (ctx ← the_context s; decodeAudioData_default audioData ctx) = Throw e ->
      exists s1,
        playAudio_speech playbackAlert k (Return base64) s = Return s1 /\
        s1 = set_calls (<[k := AwaitDecode (Throw e)]> (calls s)) s /\
        forall s2,
          calls s2 !! k = Some (AwaitDecode (Throw e)) ->
          exists s',
            playAudio_decoded playbackAlert k s2 = Return s' /\
            audioState s' = ERROR /\
            alerts s' = (alerts s2 ++ [playbackAlert])%list /\
            nodes s' = nodes s2 /\ audioSourceRef s' = audioSourceRef s2 /\
            audioContextRef s' = audioContextRef s2 /\
            calls s' = <[k := Finished]> (calls s2)).
Proof.
  intros Hk. split.
  - intros speech Hfail. unfold playAudio_speech. rewrite Hk.
    destruct Hfail as [[e ->] | (base64 & e & -> & Hd)]; simpl; rewrite ?Hd;
      (eexists; split; [reflexivity|]; simpl; repeat split).
  - intros base64 audioData e Hb Hd.
    unfold playAudio_speech. rewrite Hk. simpl. rewrite Hb, Hd.
    eexists; split; [reflexivity|]. split; [reflexivity|].
    intros s2 Hk2. unfold playAudio_decoded. rewrite Hk2.
    eexists; split; [reflexivity|]. simpl. repeat split.
Qed.

End StopAndFailure.

(** A call that waits for the speech: a rejected fetch, a payload that is not base64 (["!"]) and a
    payload of one byte (["QQ=="], which [decodeAudioData] rejects) all end
    in [ERROR] with one alert and no source node. *)
Lemma playAudio_failure_witness :
  calls loading_example !! 0%nat = Some (AwaitSpeech "太初") /\
  (exists s',
      playAudio_speech playbackAlert_gemini 0 (Throw (ApiError 503)) loading_example
      = Return s' /\
      audioState s' = ERROR /\ alerts s' = [playbackAlert_gemini] /\ nodes s' = []) /\
  (exists s',
      playAudio_speech playbackAlert_gemini 0 (Return "!") loading_example
      = Return s' /\
      audioState s' = ERROR /\ alerts s' = [playbackAlert_gemini] /\ nodes s' = []) /\
  (exists s1 s',
      playAudio_speech playbackAlert_gemini 0 (Return "QQ==") loading_example
      = Return s1 /\
      playAudio_decoded playbackAlert_gemini 0 s1 = Return s' /\
      audioState s' = ERROR /\ alerts s' = [playbackAlert_gemini] /\ nodes s' = []).
Proof.
  split; [reflexivity|].
  destruct (playAudio_failure playbackAlert_gemini loading_example 0 "太初" eq_refl)
    as [Hfail Hdecode].
  split; [|split].
  - destruct (Hfail (Throw (ApiError 503)) (or_introl (ex_intro _ _ eq_refl)))
      as (s' & Hs' & Hst & Hal & Hn & _).
    exists s'. auto.
  - destruct (Hfail (Return "!")
                (or_intror (ex_intro _ "!"
                   (ex_intro _ InvalidCharacterError (conj eq_refl eq_refl)))))
      as (s' & Hs' & Hst & Hal & Hn & _).
    exists s'. auto.
  - destruct (Hdecode "QQ==" ["065"%byte] RangeError eq_refl eq_refl)
      as (s1 & Hs1 & Heq & Hrest).
    destruct (Hrest s1) as (s' & Hs' & Hst & Hal & Hn & _).
    { rewrite Heq. reflexivity. }
    exists s1, s'.
    split; [exact Hs1|]. split; [exact Hs'|]. split; [exact Hst|].
    split; [rewrite Hal, Heq; reflexivity | rewrite Hn, Heq; reflexivity].
Defined.

(** Two calls of [playAudio] in a row and a successful fetch: the second
    call changes nothing, one call is recorded, one session plays. *)
Example two_rapid_plays :
  exists s,
    run playbackAlert_gemini
        [ContentLoaded "太初"; PlayAudio; PlayAudio;
         SpeechSettled 0 (Return "AAD/fwCA"); DecodeSettled 0] initial
    = Return s /\
    length (calls s) = 1%nat /\ length (active_sessions s) = 1%nat /\
    audioState s = PLAYING /\ audioSourceRef s = Some 0%nat.
Proof. eexists. split; [by vm_compute|]. by vm_compute. Qed.

(** Playing again while a source plays: the first source is stopped, the
    second is the session. *)
Example play_again_stops_previous :
  exists s,
    run playbackAlert_gemini
        [ContentLoaded "太初"; PlayAudio;
         SpeechSettled 0 (Return "AAD/fwCA"); DecodeSettled 0;
         PlayAudio; SpeechSettled 1 (Return "AAD/fwCA"); DecodeSettled 1] initial
    = Return s /\
    node_status <$> nodes s = [Stopped; Playing] /\
    length (active_sessions s) = 1%nat /\ audioSourceRef s = Some 1%nat.
Proof. eexists. split; [by vm_compute|]. by vm_compute. Qed.

(** [stopAudio] with no session, and with a current node whose [stop()]
    throws: both return, [IDLE], the reference cleared. *)
Example stopAudio_without_session :
  stopAudio initial = Return initial /\
  node_stop 0 [mkSourceNode None false false Unscheduled] = Throw InvalidStateError /\
  stopAudio (mkState "" PLAYING None (Some 0%nat)
               [mkSourceNode None false false Unscheduled] [] [])
  = Return (mkState "" IDLE None None
              [mkSourceNode None false false Unscheduled] [] []).
Proof. repeat split. Qed.

(* ===================================================================== *)
(** * Properties of the PCM decoder *)
(* ===================================================================== *)

Section PcmDecoder.

Lemma int16_elements_length (buffer : list byte) :
  length (int16_elements buffer) = Nat.div2 (length buffer).
Proof.
  remember (length buffer) as n eqn:Hn. revert buffer Hn.
  induction n as [n IH] using lt_wf_ind.
  intros [|lo [|hi r]] Hn; subst n; try reflexivity.
  simpl. f_equal. eapply IH; [|reflexivity]. simpl. lia.
Qed.

Lemma int16_elements_lookup (buffer : list byte) (j : nat) (v : Z) :
  int16_elements buffer !! j = Some v ->
  exists lo hi, buffer !! (2 * j)%nat = Some lo /\
                buffer !! (2 * j + 1)%nat = Some hi /\
                v = int16_of_bytes lo hi.
Proof.
  revert buffer.
  induction j as [|j IH]; intros [|lo [|hi r]] Hj; try discriminate.
  - injection Hj as <-. exists lo, hi. auto.
  - simpl in Hj. destruct (IH r Hj) as (lo' & hi' & Hlo & Hhi & ->).
    exists lo', hi'.
    replace (2 * S j)%nat with (S (S (2 * j))) by lia.
    replace (S (S (2 * j)) + 1)%nat with (S (S (2 * j + 1))) by lia.
    auto.
Qed.

Lemma byte_value_range (b : byte) : 0 <= byte_value b < 256.
Proof.
  unfold byte_value. pose proof (Byte.to_N_bounded b) as Hb.
  apply (proj1 (N2Z.inj_le _ _)) in Hb.
  change (Z.of_N 255) with 255 in Hb.
  pose proof (N2Z.is_nonneg (Byte.to_N b)). lia.
Qed.

Lemma int16_of_bytes_range (lo hi : byte) :
  -32768 <= int16_of_bytes lo hi <= 32767.
Proof.
  unfold int16_of_bytes.
  pose proof (byte_value_range lo). pose proof (byte_value_range hi).
  destruct (_ <? _) eqn:Hlt; [apply Z.ltb_lt in Hlt | apply Z.ltb_ge in Hlt]; lia.
Qed.

Lemma normalized_range (v : Z) :
  -32768 <= v <= 32767 ->
  (-1 <= inject_Z v / 32768 /\ inject_Z v / 32768 < 1)%Q.
Proof.
  intros Hv. unfold Qle, Qlt, Qdiv, Qmult, Qinv, inject_Z. simpl. lia.
Qed.

(** The stores of the inner loop: every position below both the bound and
    the length of the array holds its value, and the length is unchanged. *)
Lemma stores_length (f : nat -> number) (k : nat) (cd : Float32Array) :
  length (foldl (fun cd i => <[i := f i]> cd) cd (seq 0 k)) = length cd.
Proof.
  induction k as [|k IH]; [reflexivity|].
  rewrite seq_S, foldl_app. simpl. by rewrite length_insert.
Qed.

Lemma stores_lookup (f : nat -> number) (k : nat) (cd : Float32Array) (i : nat) :
  (i < length cd)%nat -> (i < k)%nat ->
  foldl (fun cd i => <[i := f i]> cd) cd (seq 0 k) !! i = Some (f i).
Proof.
  intros Hlen. induction k as [|k IH]; intros Hk; [lia|].
  rewrite seq_S, foldl_app. simpl.
  destruct (decide (i = k)) as [->|Hne].
  - apply list_lookup_insert_eq. by rewrite stores_length.
  - rewrite list_lookup_insert_ne by congruence. apply IH. lia.
Qed.

(** The outer loop: channel [j] is the result of its inner loop. *)
Lemma channels_sampleRate (g : nat -> Float32Array -> Float32Array)
    (k : nat) (buffer : AudioBuffer) :
  sampleRate
    (foldl (fun buffer channel =>
              mkAudioBuffer (sampleRate buffer)
                (alter (g channel) channel (channelData buffer)))
           buffer (seq 0 k))
  = sampleRate buffer.
Proof.
  induction k as [|k IH]; [reflexivity|].
  rewrite seq_S, foldl_app. simpl. exact IH.
Qed.

Lemma channels_length (g : nat -> Float32Array -> Float32Array)
    (k : nat) (buffer : AudioBuffer) :
  length (channelData
            (foldl (fun buffer channel =>
                      mkAudioBuffer (sampleRate buffer)
                        (alter (g channel) channel (channelData buffer)))
                   buffer (seq 0 k)))
  = length (channelData buffer).
Proof.
  induction k as [|k IH]; [reflexivity|].
  rewrite seq_S, foldl_app. simpl. by rewrite length_alter.
Qed.

Lemma channels_lookup (g : nat -> Float32Array -> Float32Array)
    (k : nat) (buffer : AudioBuffer) (j : nat) :
  channelData
    (foldl (fun buffer channel =>
              mkAudioBuffer (sampleRate buffer)
                (alter (g channel) channel (channelData buffer)))
           buffer (seq 0 k)) !! j
  = if decide (j < k)%nat then g j <$> channelData buffer !! j
    else channelData buffer !! j.
Proof.
  induction k as [|k IH].
  - simpl. destruct (decide (j < 0)%nat); [lia | reflexivity].
  - rewrite seq_S, foldl_app. simpl.
    destruct (decide (j = k)) as [->|Hne].
    + rewrite list_lookup_alter_eq, IH.
      destruct (decide (k < k)%nat); [lia|].
      destruct (decide (k < S k)%nat); [reflexivity | lia].
    + rewrite list_lookup_alter_ne by congruence. rewrite IH.
      destruct (decide (j < k)%nat), (decide (j < S k)%nat); try lia; reflexivity.
Qed.

End PcmDecoder.

Lemma createBuffer_returns ctx (channels : Z) (length : Q) (rate frames : Z) :
  1 <= channels <= maxChannels -> 8000 <= rate <= 96000 ->
  Qfloor length = frames -> 1 <= frames < 4294967296 ->
  createBuffer ctx channels length rate
  = Return (mkAudioBuffer rate
              (replicate (Z.to_nat channels)
                 (replicate (Z.to_nat frames) (Num 0)))).
Proof.
  unfold createBuffer, maxChannels. intros Hc Hr -> Hf.
  assert ((channels <? 1) = false) as -> by lia.
  assert ((32 <? channels) = false) as -> by lia.
  assert ((rate <? 8000) = false) as -> by lia.
  assert ((96000 <? rate) = false) as -> by lia.
  cbv [orb]. cbv zeta. rewrite Z.mod_small by lia.
  assert ((frames <? 1) = false) as -> by lia.
  reflexivity.
Qed.

Section PcmDecoderClaims.

Variable data : list byte.
Variable ctx : AudioContext.
Variables sampleRate numChannels : Z.

Hypothesis data_even : Nat.even (length data) = true.
Hypothesis data_size : Z.of_nat (length data) < 4294967296.
Hypothesis channels_supported : 1 <= numChannels <= maxChannels.
Hypothesis rate_supported : 8000 <= sampleRate <= 96000.

Let dataInt16 : list Z := int16_elements data.
Let frames : Z := Z.of_nat (length dataInt16) / numChannels.

Lemma frames_floor : Qfloor (frameCount dataInt16 numChannels) = frames.
Proof. unfold frameCount, frames. symmetry. apply Zdiv_Qdiv. Qed.

Lemma frames_bound : 0 <= frames < 4294967296.
Proof.
  unfold frames.
  assert (Z.of_nat (length dataInt16) <= Z.of_nat (length data)) as Hle.
  { unfold dataInt16. rewrite int16_elements_length, Nat.div2_div.
    pose proof (Nat.Div0.div_le_upper_bound (length data) 2 (length data)). lia. }
  split.
  - apply Z.div_pos; lia.
  - apply Z.div_lt_upper_bound; nia.
Qed.

(** With at least one whole frame, the decoder returns the buffer that its
    two loops fill. *)
Lemma decodeAudioData_returns :
  numChannels <= Z.of_nat (length dataInt16) ->
  decodeAudioData data ctx sampleRate numChannels
  = Return
      (foldl (fun buffer channel =>
                mkAudioBuffer (Browser.sampleRate buffer)
                  (alter (fill_channel dataInt16 (Z.to_nat numChannels) channel
                            (frameCount dataInt16 numChannels))
                         channel (channelData buffer)))
             (mkAudioBuffer sampleRate
                (replicate (Z.to_nat numChannels)
                   (replicate (Z.to_nat frames) (Num 0))))
             (seq 0 (Z.to_nat numChannels))).
Proof.
  intros Hframe. unfold decodeAudioData, Int16Array. rewrite data_even.
  change (Return (int16_elements data) ≫= ?k) with (k dataInt16). cbv beta zeta.
  rewrite (createBuffer_returns ctx numChannels _ sampleRate frames);
    [reflexivity | exact channels_supported | exact rate_supported
    | exact frames_floor |].
  pose proof frames_bound as Hb.
  assert (1 <= frames) as H1 by (unfold frames; apply Z.div_le_lower_bound; lia).
  lia.
Qed.

(** Without one whole frame the frame count is below one, and
    [createBuffer] refuses it. *)
Lemma decodeAudioData_no_frame :
  Z.of_nat (length dataInt16) < numChannels ->
  decodeAudioData data ctx sampleRate numChannels = Throw NotSupportedError.
Proof.
  intros Hfew. unfold decodeAudioData, Int16Array. rewrite data_even.
  change (Return (int16_elements data) ≫= ?k) with (k dataInt16). cbv beta zeta.
  unfold createBuffer, maxChannels in *.
  assert ((numChannels <? 1) = false) as -> by lia.
  assert ((32 <? numChannels) = false) as -> by lia.
  assert ((sampleRate <? 8000) = false) as -> by lia.
  assert ((96000 <? sampleRate) = false) as -> by lia.
  cbv [orb]. cbv zeta. rewrite frames_floor.
  assert (frames = 0) as -> by (unfold frames; apply Z.div_small; lia).
  reflexivity.
Qed.

(** C2 (as amended): for a buffer of even length, the frame count is the
    number of 16-bit samples divided by the channel count; when there is at
    least one whole frame, [decodeAudioData] returns a buffer that has that
    many frames in each channel with the fraction cut off, whether or not
    the division leaves a remainder (the samples of the remainder are
    dropped, nothing is thrown); with fewer samples than channels it throws
    the NotSupportedError of [createBuffer]. *)
Theorem decodeAudioData_frame_count :
  length (int16_elements data) = Nat.div2 (length data) /\
  frameCount (int16_elements data) numChannels
  = (inject_Z (Z.of_nat (length (int16_elements data))) / inject_Z numChannels)%Q /\
  (numChannels <= Z.of_nat (length (int16_elements data)) ->
   exists buffer,
     decodeAudioData data ctx sampleRate numChannels = Return buffer /\
     Browser.sampleRate buffer = sampleRate /\
     length (channelData buffer) = Z.to_nat numChannels /\
     (forall channel cd,
         channelData buffer !! channel = Some cd ->
         Z.of_nat (length cd)
         = Z.of_nat (length (int16_elements data)) / numChannels) /\
     Z.of_nat (length (int16_elements data))
     - numChannels * (Z.of_nat (length (int16_elements data)) / numChannels)
     = Z.of_nat (length (int16_elements data)) mod numChannels) /\
  (Z.of_nat (length (int16_elements data)) < numChannels ->
   decodeAudioData data ctx sampleRate numChannels = Throw NotSupportedError).
Proof.
  split; [apply int16_elements_length|]. split; [reflexivity|].
  split; [|exact decodeAudioData_no_frame].
  intros Hframe.
  eexists. split; [exact (decodeAudioData_returns Hframe)|].
  pose proof frames_bound as Hb.
  split; [by rewrite channels_sampleRate|].
  split; [by rewrite channels_length; simpl; rewrite length_replicate|].
  split.
  - intros channel cd. rewrite channels_lookup. simpl.
    destruct (decide (channel < Z.to_nat numChannels)%nat) as [Hlt|Hge].
    + rewrite lookup_replicate_2 by exact Hlt. simpl. intros [= <-].
      unfold fill_channel. rewrite stores_length, length_replicate.
      fold dataInt16. fold frames. lia.
    + intros Hl. apply lookup_replicate in Hl as [_ Hl]. lia.
  - rewrite Z.mod_eq by (unfold maxChannels in *; lia). reflexivity.
Qed.

(** C4: for a buffer of even length, sample [i] of channel [channel] of the
    decoded buffer is the 16-bit sample at [i * numChannels + channel]
    divided by 32768, a number from -1 (included) to 1 (excluded); that
    16-bit sample is the two's-complement reading of its two bytes, low byte
    first. *)
Theorem decodeAudioData_sample (i channel : nat) :
  Z.of_nat channel < numChannels ->
  Z.of_nat i < Z.of_nat (length (int16_elements data)) / numChannels ->
  exists buffer cd v lo hi,
    decodeAudioData data ctx sampleRate numChannels = Return buffer /\
    channelData buffer !! channel = Some cd /\
    int16_elements data !! (i * Z.to_nat numChannels + channel)%nat = Some v /\
    data !! (2 * (i * Z.to_nat numChannels + channel))%nat = Some lo /\
    data !! (2 * (i * Z.to_nat numChannels + channel) + 1)%nat = Some hi /\
    v = int16_of_bytes lo hi /\
    cd !! i = Some (Num (inject_Z v / 32768)%Q) /\
    (-1 <= inject_Z v / 32768)%Q /\ (inject_Z v / 32768 < 1)%Q.
Proof.
  intros Hch Hi. fold dataInt16 in Hi |- *. fold frames in Hi.
  unfold maxChannels in *.
  assert (numChannels * frames <= Z.of_nat (length dataInt16)) as Hmul
      by (unfold frames; apply Z.mul_div_le; lia).
  assert (numChannels <= Z.of_nat (length dataInt16)) as Hframe by nia.
  assert (i * Z.to_nat numChannels + channel < length dataInt16)%nat as Hidx by nia.
  destruct (lookup_lt_is_Some_2 _ _ Hidx) as [v Hv].
  destruct (int16_elements_lookup _ _ _ Hv) as (lo & hi & Hlo & Hhi & Hvb).
  eexists _, _, v, lo, hi.
  split; [exact (decodeAudioData_returns Hframe)|].
  split.
  { rewrite channels_lookup. simpl.
    destruct (decide (channel < Z.to_nat numChannels)%nat) as [Hlt|Hge]; [|lia].
    rewrite lookup_replicate_2 by exact Hlt. reflexivity. }
  split; [exact Hv|]. split; [exact Hlo|]. split; [exact Hhi|].
  split; [exact Hvb|].
  split.
  { unfold fill_channel. rewrite stores_lookup.
    - unfold sample. fold dataInt16. rewrite Hv. reflexivity.
    - rewrite length_replicate. lia.
    - pose proof (Qle_floor_ceiling (frameCount dataInt16 numChannels)) as Hfc.
      rewrite <- Zle_Qle, frames_floor in Hfc. lia. }
  apply normalized_range. subst v. apply int16_of_bytes_range.
Qed.

End PcmDecoderClaims.

(** Three samples in two channels: one frame a channel, the third sample
    is dropped. *)
Lemma decodeAudioData_frame_count_witness :
  Nat.even (length three_samples) = true /\
  Z.of_nat (length three_samples) < 4294967296 /\
  1 <= 2 <= maxChannels /\ 8000 <= 24000 <= 96000 /\
  exists buffer,
    decodeAudioData three_samples (mkAudioContext 24000 Running) 24000 2
    = Return buffer /\
    length (channelData buffer) = 2%nat /\
    (forall channel cd,
        channelData buffer !! channel = Some cd -> Z.of_nat (length cd) = 1) /\
    Z.of_nat (length (int16_elements three_samples)) mod 2 = 1.
Proof.
  assert (Nat.even (length three_samples) = true) as H1 by reflexivity.
  assert (Z.of_nat (length three_samples) < 4294967296) as H2 by reflexivity.
  assert (1 <= 2 <= maxChannels) as H3 by (unfold maxChannels; lia).
  assert (8000 <= 24000 <= 96000) as H4 by lia.
  assert (2 <= Z.of_nat (length (int16_elements three_samples))) as H5
      by (vm_compute; discriminate).
  repeat (split; [assumption|]).
  destruct (decodeAudioData_frame_count three_samples
              (mkAudioContext 24000 Running) 24000 2 H1 H2 H3 H4)
    as (_ & _ & Hok & _).
  destruct (Hok H5) as (buffer & Hd & _ & Hl & Hc & _).
  exists buffer. repeat split; [exact Hd | exact Hl | exact Hc].
Defined.

(** C2, as stated, fails: one sample for two channels does not divide
    evenly, and the decoder throws instead of truncating. *)
Lemma decodeAudioData_one_sample_two_channels :
  Z.of_nat (length (int16_elements ["000"; "000"]%byte)) mod 2 <> 0 /\
  decodeAudioData ["000"; "000"]%byte (mkAudioContext 24000 Running) 24000 2
  = Throw NotSupportedError /\
  ~ exists buffer,
      decodeAudioData ["000"; "000"]%byte (mkAudioContext 24000 Running) 24000 2
      = Return buffer.
Proof.
  split; [by vm_compute|]. split; [reflexivity|].
  intros [buffer Hb]. discriminate Hb.
Qed.

(** The second sample of a one-channel buffer of three samples. *)
Lemma decodeAudioData_sample_witness :
  Nat.even (length three_samples) = true /\
  Z.of_nat (length three_samples) < 4294967296 /\
  1 <= 1 <= maxChannels /\ 8000 <= 24000 <= 96000 /\
  Z.of_nat 0 < 1 /\
  Z.of_nat 1 < Z.of_nat (length (int16_elements three_samples)) / 1 /\
  exists buffer cd,
    decodeAudioData three_samples (mkAudioContext 24000 Running) 24000 1
    = Return buffer /\
    channelData buffer !! 0%nat = Some cd /\
    cd !! 1%nat = Some (Num (inject_Z 32767 / 32768)%Q).
Proof.
  assert (Nat.even (length three_samples) = true) as H1 by reflexivity.
  assert (Z.of_nat (length three_samples) < 4294967296) as H2 by reflexivity.
  assert (1 <= 1 <= maxChannels) as H3 by (unfold maxChannels; lia).
  assert (8000 <= 24000 <= 96000) as H4 by lia.
  assert (Z.of_nat 0 < 1) as H5 by reflexivity.
  assert (Z.of_nat 1 < Z.of_nat (length (int16_elements three_samples)) / 1) as H6
      by reflexivity.
  repeat (split; [assumption|]).
  destruct (decodeAudioData_sample three_samples
              (mkAudioContext 24000 Running) 24000 1 H1 H2 H3 H4 1%nat 0%nat H5 H6)
    as (buffer & cd & v & lo & hi & Hd & Hc & Hv & _ & _ & _ & Hcd & _).
  vm_compute in Hv. injection Hv as <-.
  exists buffer, cd. repeat split; [exact Hd | exact Hc | exact Hcd].
Defined.

(** What the decoder rejects: a buffer of odd length cannot be viewed as
    16-bit samples, and a buffer without one whole frame gives a frame count
    that [createBuffer] refuses. *)
Example decodeAudioData_rejections :
  decodeAudioData ["000"; "000"; "255"]%byte (mkAudioContext 24000 Running) 24000 1
  = Throw RangeError /\
  decodeAudioData [] (mkAudioContext 24000 Running) 24000 1
  = Throw NotSupportedError /\
  decodeAudioData ["000"; "000"]%byte (mkAudioContext 24000 Running) 24000 2
  = Throw NotSupportedError.
Proof. repeat split. Qed.

(* ===================================================================== *)
(** * Properties of the base64 decoder *)
(* ===================================================================== *)

Section Base64.

Lemma list_ind3 {A} (P : list A -> Prop) :
  P [] -> (forall a, P [a]) -> (forall a b, P [a; b]) ->
  (forall a b c r, P r -> P (a :: b :: c :: r)) ->
  forall l, P l.
Proof.
  intros H0 H1 H2 H3 l.
  assert (P l /\ (forall a, P (a :: l)) /\ (forall a b, P (a :: b :: l))) as [Hl _].
  { induction l as [|x l (IH0 & IH1 & IH2)]; [by auto|].
    split; [apply IH1|]. split; [intros a; apply IH2|].
    intros a b. by apply H3. }
  exact Hl.
Qed.

Lemma alphabet_char_spec (n : Z) :
  is_sextet n ->
  alphabet_index (alphabet_char n) = Some n /\
  is_ascii_whitespace (alphabet_char n) = false /\
  Ascii.eqb (alphabet_char n) pad = false.
Proof.
  intros Hn. unfold is_sextet in Hn.
  replace n with (Z.of_nat (Z.to_nat n)) by lia.
  assert (Z.to_nat n < 64)%nat as Hk by lia.
  generalize dependent (Z.to_nat n). clear Hn. intros k Hk.
  do 64 (destruct k as [|k]; [by vm_compute|]). lia.
Qed.

Lemma sextets_of_bytes_range (bs : list Z) :
  Forall is_byte bs -> Forall is_sextet (sextets_of_bytes bs).
Proof.
  induction bs as [|a|a b|a b c r IH] using list_ind3; intros Hbs; simpl.
  - constructor.
  - apply Forall_cons_1 in Hbs as [Ha _]. unfold is_byte, is_sextet in *.
    repeat constructor; Z.div_mod_to_equations; lia.
  - apply Forall_cons_1 in Hbs as [Ha Hbs].
    apply Forall_cons_1 in Hbs as [Hb _]. unfold is_byte, is_sextet in *.
    repeat constructor; Z.div_mod_to_equations; lia.
  - apply Forall_cons_1 in Hbs as [Ha Hbs].
    apply Forall_cons_1 in Hbs as [Hb Hbs].
    apply Forall_cons_1 in Hbs as [Hc Hbs]. specialize (IH Hbs).
    unfold is_byte, is_sextet in *.
    repeat (constructor; [Z.div_mod_to_equations; lia|]). exact IH.
Qed.

Lemma bytes_of_sextets_of_bytes (bs : list Z) :
  Forall is_byte bs -> bytes_of_sextets (sextets_of_bytes bs) = bs.
Proof.
  induction bs as [|a|a b|a b c r IH] using list_ind3; intros Hbs.
  - reflexivity.
  - apply Forall_cons_1 in Hbs as [Ha _]. unfold is_byte in *. simpl.
    f_equal. Z.div_mod_to_equations. lia.
  - apply Forall_cons_1 in Hbs as [Ha Hbs].
    apply Forall_cons_1 in Hbs as [Hb _]. unfold is_byte in *. simpl.
    assert (((a / 4 * 64 + (a mod 4 * 16 + b / 16)) * 64 + b mod 16 * 4) / 4
            = a * 256 + b) as -> by (Z.div_mod_to_equations; lia).
    f_equal; [|f_equal]; Z.div_mod_to_equations; lia.
  - apply Forall_cons_1 in Hbs as [Ha Hbs].
    apply Forall_cons_1 in Hbs as [Hb Hbs].
    apply Forall_cons_1 in Hbs as [Hc Hbs]. specialize (IH Hbs).
    unfold is_byte in *.
    change (sextets_of_bytes (a :: b :: c :: r))
      with (a / 4 :: a mod 4 * 16 + b / 16 :: b mod 16 * 4 + c / 64
            :: c mod 64 :: sextets_of_bytes r).
    cbn [bytes_of_sextets]. rewrite IH.
    assert (((a / 4 * 64 + (a mod 4 * 16 + b / 16)) * 64
             + (b mod 16 * 4 + c / 64)) * 64 + c mod 64
            = a * 65536 + b * 256 + c) as -> by (Z.div_mod_to_equations; lia).
    f_equal; [|f_equal; [|f_equal]]; Z.div_mod_to_equations; lia.
Qed.

Lemma remove_padding_cons (x : ascii) (l : list ascii) :
  Ascii.eqb x pad = false ->
  remove_padding (x :: l) = x :: remove_padding l.
Proof.
  intros Hx. unfold remove_padding. simpl.
  destruct (rev l) as [|c1 [|c2 r]] eqn:Hrev; simpl.
  - rewrite Hx. apply (f_equal (@rev _)) in Hrev.
    rewrite rev_involutive in Hrev. by subst l.
  - apply (f_equal (@rev _)) in Hrev. rewrite rev_involutive in Hrev.
    simpl in Hrev. subst l.
    destruct (Ascii.eqb c1 pad); [rewrite Hx|]; reflexivity.
  - destruct (Ascii.eqb c1 pad); [|reflexivity].
    destruct (Ascii.eqb c2 pad); simpl; rewrite ?rev_app_distr; reflexivity.
Qed.

Lemma remove_padding_encode_chars (bs : list Z) :
  Forall is_byte bs ->
  remove_padding (encode_chars bs) = map alphabet_char (sextets_of_bytes bs).
Proof.
  intros Hbs. pose proof (sextets_of_bytes_range bs Hbs) as Hsx. clear Hbs.
  induction bs as [|a|a b|a b c r IH] using list_ind3; simpl in *.
  - reflexivity.
  - apply Forall_cons_1 in Hsx as [H0 Hsx]. apply Forall_cons_1 in Hsx as [H1 _].
    rewrite !remove_padding_cons by (by apply alphabet_char_spec).
    reflexivity.
  - apply Forall_cons_1 in Hsx as [H0 Hsx]. apply Forall_cons_1 in Hsx as [H1 Hsx].
    apply Forall_cons_1 in Hsx as [H2 _].
    rewrite !remove_padding_cons by (by apply alphabet_char_spec).
    reflexivity.
  - apply Forall_cons_1 in Hsx as [H0 Hsx]. apply Forall_cons_1 in Hsx as [H1 Hsx].
    apply Forall_cons_1 in Hsx as [H2 Hsx]. apply Forall_cons_1 in Hsx as [H3 Hsx].
    rewrite !remove_padding_cons by (by apply alphabet_char_spec).
    by rewrite (IH Hsx).
Qed.

Lemma encode_chars_length (bs : list Z) :
  Z.of_nat (length (encode_chars bs)) mod 4 = 0.
Proof.
  induction bs as [|a|a b|a b c r IH] using list_ind3; try reflexivity.
  cbn [encode_chars length].
  replace (Z.of_nat (S (S (S (S (length (encode_chars r))))))) 
    with (Z.of_nat (length (encode_chars r)) + 1 * 4) by lia.
  by rewrite Z.mod_add.
Qed.

Lemma sextets_of_bytes_length (bs : list Z) :
  Z.of_nat (length (sextets_of_bytes bs)) mod 4 <> 1.
Proof.
  induction bs as [|a|a b|a b c r IH] using list_ind3; try (by vm_compute).
  cbn [sextets_of_bytes length].
  replace (Z.of_nat (S (S (S (S (length (sextets_of_bytes r))))))) 
    with (Z.of_nat (length (sextets_of_bytes r)) + 1 * 4) by lia.
  by rewrite Z.mod_add.
Qed.

Lemma encode_chars_no_whitespace (bs : list Z) :
  Forall is_byte bs ->
  filter (fun c => is_ascii_whitespace c = false) (encode_chars bs)
  = encode_chars bs.
Proof.
  intros Hbs. pose proof (sextets_of_bytes_range bs Hbs) as Hsx. clear Hbs.
  assert (forall n l, is_sextet n ->
            filter (fun c => is_ascii_whitespace c = false) (alphabet_char n :: l)
            = alphabet_char n
              :: filter (fun c => is_ascii_whitespace c = false) l) as Hcons.
  { intros n l Hn. apply filter_cons_True. by apply alphabet_char_spec. }
  induction bs as [|a|a b|a b c r IH] using list_ind3; simpl in *.
  - reflexivity.
  - apply Forall_cons_1 in Hsx as [H0 Hsx]. apply Forall_cons_1 in Hsx as [H1 _].
    by rewrite !Hcons.
  - apply Forall_cons_1 in Hsx as [H0 Hsx]. apply Forall_cons_1 in Hsx as [H1 Hsx].
    apply Forall_cons_1 in Hsx as [H2 _].
    by rewrite !Hcons.
  - apply Forall_cons_1 in Hsx as [H0 Hsx]. apply Forall_cons_1 in Hsx as [H1 Hsx].
    apply Forall_cons_1 in Hsx as [H2 Hsx]. apply Forall_cons_1 in Hsx as [H3 Hsx].
    rewrite !Hcons by assumption. by rewrite (IH Hsx).
Qed.

Lemma alphabet_index_chars (sx : list Z) :
  Forall is_sextet sx -> mapM alphabet_index (map alphabet_char sx) = Some sx.
Proof.
  induction 1 as [|n sx Hn _ IH]; [reflexivity|].
  simpl. destruct (alphabet_char_spec n Hn) as [-> _]. simpl.
  rewrite IH. reflexivity.
Qed.

(** [atob] undoes the encoding of a sequence of byte values. *)
Lemma atob_encode_chars (bs : list Z) :
  Forall is_byte bs ->
  atob (string_of_list_ascii (encode_chars bs))
  = Return (string_of_list_ascii (map char_of_code bs)).
Proof.
  intros Hbs. unfold atob.
  rewrite list_ascii_of_string_of_list_ascii.
  rewrite (encode_chars_no_whitespace bs Hbs).
  rewrite encode_chars_length. cbn [Z.eqb].
  rewrite (remove_padding_encode_chars bs Hbs), length_map.
  destruct (Z.eqb_spec (Z.of_nat (length (sextets_of_bytes bs)) mod 4) 1) as [He|_];
    [by destruct (sextets_of_bytes_length bs)|].
  rewrite alphabet_index_chars by (by apply sextets_of_bytes_range).
  by rewrite bytes_of_sextets_of_bytes.
Qed.

Lemma code_of_ascii_of_byte (b : byte) : code_of_char (ascii_of_byte b) = byte_value b.
Proof.
  unfold code_of_char, byte_value. f_equal.
  rewrite ascii_of_byte_via_N. apply N_ascii_embedding.
  pose proof (byte_value_range b) as Hb. unfold byte_value in Hb. lia.
Qed.

Lemma byte_of_char_of_code (b : byte) : byte_of_ascii (char_of_code (byte_value b)) = b.
Proof.
  unfold char_of_code, byte_value. rewrite N2Z.id, <- ascii_of_byte_via_N.
  apply byte_of_ascii_of_byte.
Qed.

(** C9: decoding the standard base64 text of any byte sequence with
    [decodeBase64] returns that byte sequence. *)
Theorem decodeBase64_encodeBase64 (bytes : list byte) :
  decodeBase64 (encodeBase64 bytes) = Return bytes.
Proof.
  unfold decodeBase64, encodeBase64, btoa.
  rewrite list_ascii_of_string_of_list_ascii, map_map.
  rewrite (map_ext _ byte_value) by apply code_of_ascii_of_byte.
  rewrite atob_encode_chars.
  - simpl. rewrite list_ascii_of_string_of_list_ascii, !map_map.
    rewrite (map_ext _ id) by apply byte_of_char_of_code.
    by rewrite map_id.
  - clear. induction bytes as [|b r IH]; constructor;
      [apply byte_value_range | exact IH].
Qed.

End Base64.

(* ===================================================================== *)
(** * More properties of the services *)
(* ===================================================================== *)

Section MoreServices.

Variable API_KEY : option string.
Variable generateContent : Endpoint.


Lemma falsy_false_some o : falsy o = false -> exists d, o = Some d /\ d <> "".
Proof.
  destruct o as [[|a d]|]; simpl; try discriminate.
  intros _. eexists; split; [reflexivity | discriminate].
Qed.

Lemma or_else_nonempty o d : d <> "" -> or_else o d <> "".
Proof. destruct o as [[|a v]|]; simpl; intros Hd; [exact Hd | discriminate | exact Hd]. Qed.

(** X2: a payload that [generateSpeech] returns is never empty, and it is
    the inline data of the first part of the first candidate of a response
    that the collaborator did give (to a client with a key that passed the
    check, for the service with [getAiClient]). *)
Theorem generateSpeech_returned_payload (text d : string) :
  (Services.generateSpeech API_KEY generateContent text = Return d ->
   d <> "" /\
   exists r,
     generateContent (mkClient API_KEY) (Services.speechRequest text) = Return r /\
     first_part_data r = Some d) /\
  (Gemini.generateSpeech API_KEY generateContent text = Return d ->
   d <> "" /\ ~ Gemini.key_missing API_KEY /\
   exists r,
     generateContent (mkClient API_KEY) (Gemini.speechRequest text) = Return r /\
     first_part_data r = Some d).
Proof.
  split.
  - unfold Services.generateSpeech. simpl.
    destruct (generateContent _ _) as [r|e]; simpl; [|discriminate].
    destruct (falsy (first_part_data r)) eqn:Hf; [discriminate|].
    destruct (falsy_false_some _ Hf) as (d' & Hd' & Hne).
    rewrite Hd'. simpl. intros [= <-]. split; [exact Hne|]. eauto.
  - unfold Gemini.generateSpeech.
    destruct (key_missing_dec API_KEY) as [Hm|Hp].
    { rewrite (getAiClient_missing _ Hm). discriminate. }
    rewrite (getAiClient_present _ Hp). simpl.
    destruct (generateContent _ _) as [r|e]; simpl; [|discriminate].
    destruct (falsy (first_part_data r)) eqn:Hf; [discriminate|].
    destruct (falsy_false_some _ Hf) as (d' & Hd' & Hne).
    rewrite Hd'. simpl. intros [= <-]. split; [exact Hne|]. eauto.
Qed.

(** The text that [fetchChapterText] returns is never empty. *)
Lemma Gemini_fetchChapterText_nonempty book chapter :
  exists t, Gemini.fetchChapterText API_KEY generateContent book chapter = Return t /\
            t <> "".
Proof.
  unfold Gemini.fetchChapterText.
  destruct (Gemini.getAiClient API_KEY) as [ai|e]; simpl.
  - destruct (generateContent ai _) as [r|e]; simpl.
    + eexists; split; [reflexivity|]. by apply or_else_nonempty.
    + eexists; split; [reflexivity | discriminate].
  - eexists; split; [reflexivity | discriminate].
Qed.

Lemma Services_fetchChapterText_nonempty book chapter t :
  Services.fetchChapterText API_KEY generateContent book chapter = Return t ->
  t <> "".
Proof.
  unfold Services.fetchChapterText. simpl.
  destruct (generateContent _ _) as [r|e]; simpl; [|discriminate].
  intros [= <-]. by apply or_else_nonempty.
Qed.

(** X3: the text that [fetchChapterText] returns is never the empty string,
    in both services: an empty response text is replaced by the fallback
    text. *)
Theorem fetchChapterText_never_empty (book : string) (chapter : Z) :
  (exists t, Gemini.fetchChapterText API_KEY generateContent book chapter = Return t /\
             t <> "") /\
  (forall t,
      Services.fetchChapterText API_KEY generateContent book chapter = Return t ->
      t <> "").
Proof.
  split.
  - apply Gemini_fetchChapterText_nonempty.
  - apply Services_fetchChapterText_nonempty.
Qed.

End MoreServices.

(* ===================================================================== *)
(** * More properties of the base64 decoder *)
(* ===================================================================== *)

Section MoreBase64.

Lemma list_ascii_of_string_append (a b : string) :
  list_ascii_of_string (a ++ b)%string
  = (list_ascii_of_string a ++ list_ascii_of_string b)%list.
Proof. induction a as [|c a IH]; simpl; [reflexivity | by rewrite IH]. Qed.

(** [atob] looks at its text only through the characters that are not
    white space. *)
Lemma atob_same_characters (s s' : string) :
  filter (fun c => is_ascii_whitespace c = false) (list_ascii_of_string s)
  = filter (fun c => is_ascii_whitespace c = false) (list_ascii_of_string s') ->
  atob s = atob s'.
Proof. intros H. unfold atob. rewrite H. reflexivity. Qed.

Lemma atob_significant (s : string) :
  atob s
  = if (Z.of_nat (length (significant s)) mod 4 =? 1)%Z
    then Throw InvalidCharacterError
    else match mapM alphabet_index (significant s) with
         | None => Throw InvalidCharacterError
         | Some sextets =>
             Return (string_of_list_ascii
                       (map char_of_code (bytes_of_sextets sextets)))
         end.
Proof. reflexivity. Qed.

Lemma remove_padding_keeps (c : ascii) (l : list ascii) :
  c ∈ l -> c <> pad -> c ∈ remove_padding l.
Proof.
  intros Hc Hne. unfold remove_padding.
  assert (l = rev (rev l)) as Hl by (by rewrite rev_involutive).
  destruct (rev l) as [|c1 [|c2 r]]; simpl in *; [exact Hc| |].
  - destruct (Ascii.eqb_spec c1 pad) as [->|_]; [|exact Hc].
    subst l. apply list_elem_of_singleton in Hc. contradiction.
  - destruct (Ascii.eqb_spec c1 pad) as [->|_]; [|exact Hc].
    rewrite Hl in Hc.
    rewrite !elem_of_app, !list_elem_of_singleton in Hc.
    destruct (Ascii.eqb_spec c2 pad) as [->|_].
    + destruct Hc as [[Hc|Hc]|Hc]; [exact Hc | contradiction | contradiction].
    + rewrite elem_of_app, list_elem_of_singleton.
      destruct Hc as [Hc|Hc]; [exact Hc | contradiction].
Qed.

Lemma remove_padding_without_pad (l : list ascii) :
  Forall (fun c => Ascii.eqb c pad = false) l -> remove_padding l = l.
Proof.
  induction 1 as [|x l Hx _ IH]; [reflexivity|].
  rewrite remove_padding_cons by exact Hx. by rewrite IH.
Qed.

Lemma list_ind4 {A} (P : list A -> Prop) :
  P [] -> (forall a, P [a]) -> (forall a b, P [a; b]) -> (forall a b c, P [a; b; c]) ->
  (forall a b c d r, P r -> P (a :: b :: c :: d :: r)) ->
  forall l, P l.
Proof.
  intros H0 H1 H2 H3 H4 l.
  assert (P l /\ (forall a, P (a :: l)) /\ (forall a b, P (a :: b :: l))
          /\ (forall a b c, P (a :: b :: c :: l))) as [Hl _].
  { induction l as [|x l (IH0 & IH1 & IH2 & IH3)]; [by auto|].
    split; [apply IH1|]. split; [intros a; apply IH2|].
    split; [intros a b; apply IH3|].
    intros a b c. by apply H4. }
  exact Hl.
Qed.

Lemma bytes_of_sextets_length (l : list Z) :
  Z.of_nat (length (bytes_of_sextets l)) = 3 * Z.of_nat (length l) / 4.
Proof.
  induction l as [|a|a b|a b c|a b c d r IH] using list_ind4; try reflexivity.
  cbn [bytes_of_sextets length].
  replace (3 * Z.of_nat (S (S (S (S (length r))))))
    with (3 * Z.of_nat (length r) + 3 * 4) by lia.
  rewrite Z.div_add by lia. lia.
Qed.

(** X4: [decodeBase64] throws InvalidCharacterError on a text that holds a
    character that is neither of the base64 alphabet, nor white space, nor
    [=]; and InvalidCharacterError is all it ever throws. *)
Theorem decodeBase64_invalid_character (base64 : string) (c : ascii) :
  c ∈ list_ascii_of_string base64 ->
  alphabet_index c = None -> is_ascii_whitespace c = false -> c <> pad ->
  decodeBase64 base64 = Throw InvalidCharacterError /\
  forall text e, decodeBase64 text = Throw e -> e = InvalidCharacterError.
Proof.
  intros Hc Hidx Hws Hpad. split.
  - unfold decodeBase64. rewrite atob_significant.
    assert (c ∈ significant base64) as Hsig.
    { unfold significant.
      assert (c ∈ filter (fun c => is_ascii_whitespace c = false)
                    (list_ascii_of_string base64)) as Hf
          by (apply list_elem_of_filter; auto).
      destruct (_ =? _)%Z; [by apply remove_padding_keeps | exact Hf]. }
    destruct (_ =? _)%Z; [reflexivity|].
    rewrite (mapM_None_2 alphabet_index (significant base64)); [reflexivity|].
    apply Exists_exists. eauto.
  - intros text e. unfold decodeBase64. rewrite atob_significant.
    destruct (_ =? _)%Z; [by intros [= <-]|].
    destruct (mapM _ _); simpl; [discriminate | by intros [= <-]].
Qed.

Lemma decodeBase64_invalid_character_witness :
  decodeBase64 "QU!D" = Throw InvalidCharacterError.
Proof.
  apply (decodeBase64_invalid_character "QU!D" "!"%char).
  - vm_compute. do 2 apply list_elem_of_further. apply list_elem_of_here.
  - reflexivity.
  - reflexivity.
  - discriminate.
Defined.

(** X5: the padding is optional: decoding the base64 text of any byte
    sequence with its [=] left out returns the byte sequence. *)
Theorem decodeBase64_unpadded (bytes : list byte) :
  decodeBase64 (encodeBase64_unpadded bytes) = Return bytes.
Proof.
  unfold decodeBase64, encodeBase64_unpadded. rewrite atob_significant.
  assert (Forall is_byte (map byte_value bytes)) as Hbytes.
  { clear. induction bytes as [|b r IH]; constructor;
      [apply byte_value_range | exact IH]. }
  pose proof (sextets_of_bytes_range _ Hbytes) as Hsx.
  set (sx := sextets_of_bytes (map byte_value bytes)) in *.
  assert (significant (string_of_list_ascii (map alphabet_char sx))
          = map alphabet_char sx) as ->.
  { unfold significant. rewrite list_ascii_of_string_of_list_ascii.
    assert (filter (fun c => is_ascii_whitespace c = false) (map alphabet_char sx)
            = map alphabet_char sx) as ->.
    { clear -Hsx. induction Hsx as [|n l Hn _ IH]; [reflexivity|]. simpl.
      rewrite filter_cons_True by (by apply alphabet_char_spec). by rewrite IH. }
    destruct (_ =? _)%Z; [|reflexivity].
    apply remove_padding_without_pad.
    clear -Hsx. induction Hsx as [|n l Hn _ IH]; constructor;
      [by apply alphabet_char_spec | exact IH]. }
  rewrite length_map.
  destruct (Z.eqb_spec (Z.of_nat (length sx) mod 4) 1) as [He|_];
    [by destruct (sextets_of_bytes_length (map byte_value bytes))|].
  rewrite (alphabet_index_chars sx Hsx). subst sx.
  rewrite (bytes_of_sextets_of_bytes _ Hbytes). simpl.
  rewrite list_ascii_of_string_of_list_ascii, !map_map.
  rewrite (map_ext _ id) by apply byte_of_char_of_code.
  by rewrite map_id.
Qed.

(** X6: [decodeBase64] skips ASCII white space wherever it stands in the
    text. *)
Theorem decodeBase64_skips_whitespace (a b : string) (w : ascii) :
  is_ascii_whitespace w = true ->
  decodeBase64 (a ++ String w b)%string = decodeBase64 (a ++ b)%string.
Proof.
  intros Hw. unfold decodeBase64.
  rewrite (atob_same_characters (a ++ String w b) (a ++ b)); [reflexivity|].
  rewrite !list_ascii_of_string_append, !filter_app. simpl.
  rewrite filter_cons_False by (rewrite Hw; discriminate). reflexivity.
Qed.

Lemma decodeBase64_skips_whitespace_witness :
  is_ascii_whitespace "010"%char = true /\
  decodeBase64 ("QU" ++ String "010"%char "JD")%string
  = decodeBase64 ("QU" ++ "JD")%string.
Proof.
  split; [reflexivity|].
  apply (decodeBase64_skips_whitespace "QU" "JD" "010"%char). reflexivity.
Defined.

(** X7: the number of bytes that [decodeBase64] returns is three quarters,
    rounded down, of the number of characters that are left of the text
    after its white space and its padding are taken away. *)
Theorem decodeBase64_length (base64 : string) (bytes : list byte) :
  decodeBase64 base64 = Return bytes ->
  Z.of_nat (length bytes) = 3 * Z.of_nat (length (significant base64)) / 4.
Proof.
  unfold decodeBase64. rewrite atob_significant.
  destruct (_ =? _)%Z; [discriminate|].
  destruct (mapM _ _) as [sextets|] eqn:Hm; [|discriminate].
  simpl. intros [= <-].
  rewrite list_ascii_of_string_of_list_ascii, !length_map, bytes_of_sextets_length.
  by rewrite (length_mapM _ _ _ Hm).
Qed.

Lemma decodeBase64_length_witness :
  decodeBase64 "AAD/fw==" = Return ["000"; "000"; "255"; "127"]%byte /\
  Z.of_nat (length ["000"; "000"; "255"; "127"]%byte)
  = 3 * Z.of_nat (length (significant "AAD/fw==")) / 4.
Proof.
  split; [reflexivity|].
  apply (decodeBase64_length "AAD/fw=="). reflexivity.
Defined.

End MoreBase64.

(* ===================================================================== *)
(** * More properties of the PCM decoder *)
(* ===================================================================== *)

Section MorePcm.

Lemma frameCount_floor (dataInt16 : list Z) (numChannels : Z) :
  Qfloor (frameCount dataInt16 numChannels)
  = Z.of_nat (length dataInt16) / numChannels.
Proof. unfold frameCount. symmetry. apply Zdiv_Qdiv. Qed.

(** One channel: the inner loop stores every sample. *)
Lemma fill_channel_mono (dataInt16 : list Z) :
  fill_channel dataInt16 1 0 (frameCount dataInt16 1)
    (replicate (length dataInt16) (Num 0))
  = map (fun v => Num (inject_Z v / 32768)%Q) dataInt16.
Proof.
  apply (list_eq_same_length _ _ (length dataInt16)).
  - by rewrite length_map.
  - unfold fill_channel. by rewrite stores_length, length_replicate.
  - intros i x y Hi Hx Hy. unfold fill_channel in Hx.
    rewrite stores_lookup in Hx.
    + rewrite list_lookup_fmap in Hy. unfold sample in Hx.
      replace (i * 1 + 0)%nat with i in Hx by lia.
      destruct (dataInt16 !! i); simpl in Hy; congruence.
    + by rewrite length_replicate.
    + pose proof (Qle_floor_ceiling (frameCount dataInt16 1)) as Hfc.
      rewrite <- Zle_Qle, frameCount_floor, Z.div_1_r in Hfc. lia.
Qed.

(** X8: the call that [playAudio] makes, [decodeAudioData] with 24000 Hz and
    one channel: a buffer of odd length is a RangeError, an empty buffer a
    NotSupportedError, and any other buffer gives one channel that holds
    every 16-bit sample, in order, divided by 32768. *)
Theorem decodeAudioData_default_outcome (data : list byte) (ctx : AudioContext) :
  (Nat.even (length data) = false ->
   decodeAudioData_default data ctx = Throw RangeError) /\
  (data = [] -> decodeAudioData_default data ctx = Throw NotSupportedError) /\
  (Nat.even (length data) = true -> data <> [] ->
   Z.of_nat (length data) < 4294967296 ->
   decodeAudioData_default data ctx
   = Return (mkAudioBuffer 24000
               [map (fun v => Num (inject_Z v / 32768)%Q) (int16_elements data)])).
Proof.
  split; [|split].
  - intros Hodd. unfold decodeAudioData_default, decodeAudioData, Int16Array.
    rewrite Hodd. reflexivity.
  - intros ->. reflexivity.
  - intros Heven Hne Hsize. unfold decodeAudioData_default.
    assert (1 <= Z.of_nat (length (int16_elements data))) as Hone.
    { destruct data as [|lo [|hi r]]; [congruence | discriminate | simpl; lia]. }
    rewrite (decodeAudioData_returns data ctx 24000 1 Heven Hsize);
      [|unfold maxChannels; lia | lia | exact Hone].
    rewrite Z.div_1_r, Nat2Z.id. simpl. f_equal. f_equal. f_equal.
    apply fill_channel_mono.
Qed.

(** X9: a buffer that [decodeAudioData] returns holds no NaN: every value
    of every channel is a number from -1 (included) to 1 (excluded). *)
Theorem decodeAudioData_values (data : list byte) (ctx : AudioContext)
    (sampleRate numChannels : Z) (buffer : AudioBuffer) :
  decodeAudioData data ctx sampleRate numChannels = Return buffer ->
  Forall (Forall (fun x => exists q, x = Num q /\ (-1 <= q)%Q /\ (q < 1)%Q))
         (channelData buffer).
Proof.
  unfold decodeAudioData, Int16Array.
  destruct (Nat.even (length data)); [|discriminate].
  change (Return (int16_elements data) ≫= ?k) with (k (int16_elements data)).
  cbv beta zeta. set (dataInt16 := int16_elements data).
  unfold createBuffer, maxChannels.
  destruct (Z.ltb_spec numChannels 1) as [|Hc1]; [discriminate|].
  destruct (Z.ltb_spec 32 numChannels) as [|Hc2]; [discriminate|].
  destruct ((sampleRate <? 8000) || (96000 <? sampleRate)); [discriminate|].
  cbv [orb]. cbv zeta. rewrite frameCount_floor.
  set (frames := (Z.of_nat (length dataInt16) / numChannels) mod 4294967296).
  destruct (Z.ltb_spec frames 1) as [|Hf1]; [discriminate|].
  change (Return ?b ≫= ?k) with (k b). cbv beta. intros [= <-].
  assert (0 <= Z.of_nat (length dataInt16) / numChannels) as Hq
      by (apply Z.div_pos; lia).
  assert (frames <= Z.of_nat (length dataInt16) / numChannels) as Hle
      by (unfold frames; apply Z.mod_le; lia).
  assert (numChannels * (Z.of_nat (length dataInt16) / numChannels)
          <= Z.of_nat (length dataInt16)) as Hmul by (apply Z.mul_div_le; lia).
  apply Forall_lookup. intros j cd Hj.
  rewrite channels_lookup in Hj. simpl in Hj.
  destruct (decide (j < Z.to_nat numChannels)%nat) as [Hjc|Hjc];
    [|apply lookup_replicate in Hj as [_ Hj]; lia].
  rewrite lookup_replicate_2 in Hj by exact Hjc. simpl in Hj.
  injection Hj as <-.
  apply Forall_lookup. intros i x Hi.
  assert (i < Z.to_nat frames)%nat as Hif.
  { apply lookup_lt_Some in Hi. unfold fill_channel in Hi.
    by rewrite stores_length, length_replicate in Hi. }
  unfold fill_channel in Hi. rewrite stores_lookup in Hi.
  - injection Hi as <-. unfold sample.
    assert (i * Z.to_nat numChannels + j < length dataInt16)%nat as Hidx by nia.
    destruct (lookup_lt_is_Some_2 _ _ Hidx) as [v Hv]. rewrite Hv.
    destruct (int16_elements_lookup _ _ _ Hv) as (lo & hi & _ & _ & ->).
    eexists. split; [reflexivity|].
    apply normalized_range, int16_of_bytes_range.
  - by rewrite length_replicate.
  - pose proof (Qle_floor_ceiling (frameCount dataInt16 numChannels)) as Hfc.
    rewrite <- Zle_Qle, frameCount_floor in Hfc. lia.
Qed.

End MorePcm.

Lemma decodeAudioData_values_witness :
  exists buffer,
    decodeAudioData three_samples (mkAudioContext 24000 Running) 24000 2
    = Return buffer /\
    Forall (Forall (fun x => exists q, x = Num q /\ (-1 <= q)%Q /\ (q < 1)%Q))
           (channelData buffer).
Proof.
  eexists. split; [reflexivity|].
  apply (decodeAudioData_values three_samples (mkAudioContext 24000 Running) 24000 2).
  reflexivity.
Defined.

(* ===================================================================== *)
(** * More properties of the playback controller *)
(* ===================================================================== *)

Section MorePlayback.

Variable playbackAlert : string.

(** A property of the initial state that every handler keeps holds after
    every run of events. *)
Lemma run_keeps (P : State -> Prop) :
  (forall e s s', P s -> handle playbackAlert e s = Return s' -> P s') ->
  forall es s, P s -> exists s', run playbackAlert es s = Return s' /\ P s'.
Proof.
  intros Hkeep es. induction es as [|e es IH]; intros s Hs; simpl.
  - eauto.
  - destruct (handle_returns playbackAlert e s) as [s1 H1]. rewrite H1. simpl.
    apply IH. by eapply Hkeep.
Qed.

Lemma run_step e es s s1 :
  handle playbackAlert e s = Return s1 ->
  run playbackAlert (e :: es) s = run playbackAlert es s1.
Proof. intros H. cbn [run]. rewrite H. reflexivity. Qed.


(** What a node is after [stop()] on the node at [n]. *)
Lemma stop_swallowing_lookup s n m node' :
  nodes (stop_swallowing n s) !! m = Some node' ->
  exists node,
    nodes s !! m = Some node /\
    node_buffer node' = node_buffer node /\
    node_connected node' = node_connected node /\
    node_onended node' = node_onended node /\
    (node_status node' = node_status node \/
     (node_status node = Playing /\ node_status node' = Stopped)).
Proof.
  unfold stop_swallowing, node_stop.
  destruct (nodes s !! n) as [cur|] eqn:Hn; [|simpl; eauto 10].
  destruct (node_status cur) eqn:Hst; simpl; eauto 10.
  destruct (decide (m = n)) as [->|Hne].
  - rewrite list_lookup_insert_eq by (by eapply lookup_lt_Some).
    intros [= <-]. exists cur. simpl. auto 10.
  - rewrite list_lookup_insert_ne by congruence. eauto 10.
Qed.




Lemma previous_stopped_fields s :
  chapterContent (previous_stopped s) = chapterContent s /\
  audioState (previous_stopped s) = audioState s /\
  audioContextRef (previous_stopped s) = audioContextRef s /\
  audioSourceRef (previous_stopped s) = audioSourceRef s /\
  calls (previous_stopped s) = calls s /\
  alerts (previous_stopped s) = alerts s /\
  length (nodes (previous_stopped s)) = length (nodes s).
Proof.
  unfold previous_stopped. destruct (audioSourceRef s) as [n|] eqn:Hr.
  - pose proof (stop_swallowing_fields s n) as (? & ? & ? & Hr' & ? & ? & ?).
    rewrite Hr in Hr'. repeat split; assumption.
  - rewrite Hr. repeat split.
Qed.

Lemma previous_stopped_lookup s m node' :
  nodes (previous_stopped s) !! m = Some node' ->
  exists node,
    nodes s !! m = Some node /\
    node_buffer node' = node_buffer node /\
    node_connected node' = node_connected node /\
    node_onended node' = node_onended node /\
    (node_status node' = node_status node \/
     (node_status node = Playing /\ node_status node' = Stopped)).
Proof.
  unfold previous_stopped. destruct (audioSourceRef s) as [n|].
  - apply stop_swallowing_lookup.
  - eauto 10.
Qed.

Lemma nodes_started_kept e s s' :
  nodes_started s -> handle playbackAlert e s = Return s' -> nodes_started s'.
Proof.
  intros [Hnodes Href].
  assert (forall s0, nodes s0 = nodes s -> audioSourceRef s0 = audioSourceRef s ->
                     nodes_started s0) as Hsame.
  { intros s0 Hn Hr. split.
    - intros n node Hl. rewrite Hn in Hl. by apply (Hnodes n).
    - intros n Hm. rewrite Hr in Hm. rewrite Hn. by apply Href. }
  assert (forall s0 m node',
             nodes (previous_stopped s0) !! m = Some node' -> nodes s0 = nodes s ->
             node_status node' <> Unscheduled /\
             node_connected node' = true /\ node_onended node' = true /\
             is_Some (node_buffer node')) as Hprev.
  { intros s0 m node' Hl Hn.
    destruct (previous_stopped_lookup s0 m node' Hl)
      as (node & Hnode & -> & -> & -> & Hst).
    rewrite Hn in Hnode. destruct (Hnodes m node Hnode) as (Hu & Hc & Ho & Hb).
    repeat split; try assumption.
    destruct Hst as [-> | [_ ->]]; [exact Hu | discriminate]. }
  destruct e as [| |k speech|k|n|t]; simpl.
  - unfold playAudio. destruct (_ || _); intros [= <-]; [by split|].
    pose proof (initAudio_fields (set_audioState LOADING s)) as (_ & _ & Hr & Hn & _).
    apply Hsame; simpl; [exact Hn | exact Hr].
  - unfold stopAudio. intros [= <-].
    destruct (audioSourceRef s) as [n|] eqn:Hr; [|apply Hsame; simpl; congruence].
    split; simpl; [|discriminate].
    intros m node' Hl.
    apply (Hprev s m node'); [|reflexivity].
    unfold previous_stopped. by rewrite Hr.
  - unfold playAudio_speech.
    destruct (calls s !! k) as [[t|b|]|]; try (intros [= <-]; by split).
    destruct (speech ≫= _); intros [= <-]; by apply Hsame.
  - unfold playAudio_decoded.
    destruct (calls s !! k) as [[t|b|]|]; try (intros [= <-]; by split).
    set (s0 := set_calls _ s).
    change (match audioSourceRef s0 with
            | Some n => stop_swallowing n s0
            | None => s0
            end) with (previous_stopped s0).
    pose proof (previous_stopped_fields s0) as (_ & _ & _ & Hr & _ & _ & Hlen).
    destruct b as [buffer|e]; [|intros [= <-]; by apply Hsame].
    destruct (the_context _); intros [= <-]; split; simpl.
    + intros m node' Hl.
      apply lookup_app_Some in Hl as [Hl | [_ Hl]].
      * by apply (Hprev s0 m node' Hl).
      * apply list_lookup_singleton_Some in Hl as [_ <-]. simpl.
        repeat split; [discriminate | by eexists].
    + intros m [= <-]. rewrite length_app. simpl. lia.
    + intros m node' Hl. by apply (Hprev s0 m node' Hl).
    + intros m Hm. rewrite Hr in Hm. rewrite Hlen. by apply Href.
  - unfold node_ended.
    destruct (nodes s !! n) as [cur|] eqn:Hn; [|intros [= <-]; by split].
    assert (nodes_started
              (set_nodes (<[n := mkSourceNode (node_buffer cur) (node_connected cur)
                                    (node_onended cur) Ended]> (nodes s)) s)) as Hended.
    { destruct (Hnodes n cur Hn) as (_ & Hc & Ho & Hb).
      split; simpl.
      - intros m node' Hl. destruct (decide (m = n)) as [->|Hne].
        + rewrite list_lookup_insert_eq in Hl by (by eapply lookup_lt_Some).
          injection Hl as <-. simpl. repeat split; [discriminate | done..].
        + rewrite list_lookup_insert_ne in Hl by congruence. by apply (Hnodes m).
      - intros m Hm. rewrite length_insert. by apply Href. }
    destruct (node_status cur); intros [= <-]; try (by split);
      destruct (node_onended cur); destruct Hended; by split.
  - intros [= <-]. by apply Hsame.
Qed.

(** X11: after any events the source reference, when it is set, holds a
    node that was started, so the [stop()] that [playAudio] and [stopAudio]
    wrap in [try] does not throw; and every node has its buffer, is connected
    and has its [onended] handler. *)
Theorem source_reference_started (es : list Event) :
  exists s,
    run playbackAlert es initial = Return s /\
    nodes_started s /\
    (forall n, audioSourceRef s = Some n ->
               exists ns, node_stop n (nodes s) = Return ns).
Proof.
  destruct (run_keeps nodes_started nodes_started_kept es initial)
    as (s & Hrun & Hs).
  { split; [|discriminate]. intros n node Hn. simpl in Hn.
    rewrite lookup_nil in Hn. discriminate. }
  exists s. split; [exact Hrun|]. split; [exact Hs|].
  destruct Hs as [Hnodes Href]. intros n Hn. unfold node_stop.
  destruct (nodes s !! n) as [node|] eqn:Hl; [|eauto].
  destruct (Hnodes n node Hl) as (Hu & _).
  destruct (node_status node); eauto. congruence.
Qed.

Lemma loading_has_call_kept e s s' :
  loading_has_call s -> handle playbackAlert e s = Return s' -> loading_has_call s'.
Proof.
  unfold loading_has_call. intros Hs.
  destruct e as [| |k speech|k|n|t]; simpl.
  - unfold playAudio. destruct (_ || _); intros [= <-]; [exact Hs|].
    intros _. simpl.
    exists (length (calls (initAudio (set_audioState LOADING s)))), 
           (AwaitSpeech (chapterContent (initAudio (set_audioState LOADING s)))).
    split; [|reflexivity].
    rewrite lookup_app_r by lia. by rewrite Nat.sub_diag.
  - unfold stopAudio. intros [= <-]. discriminate.
  - unfold playAudio_speech.
    destruct (calls s !! k) as [[t|b|]|] eqn:Hk; try (intros [= <-]; exact Hs).
    destruct (speech ≫= _); intros [= <-]; simpl; [|discriminate].
    intros Hl. exists k. eexists.
    split; [apply list_lookup_insert_eq; by eapply lookup_lt_Some | reflexivity].
  - unfold playAudio_decoded.
    destruct (calls s !! k) as [[t|b|]|] eqn:Hk; try (intros [= <-]; exact Hs).
    destruct b as [buffer|e]; [destruct (the_context _)|]; intros [= <-];
      discriminate.
  - unfold node_ended.
    destruct (nodes s !! n) as [cur|]; [|intros [= <-]; exact Hs].
    destruct (node_status cur); intros [= <-]; try exact Hs;
      destruct (node_onended cur); try discriminate; exact Hs.
  - intros [= <-]. exact Hs.
Qed.

(** X12: after any events, while the state is [LOADING] some call of
    [playAudio] is still under way: the state that makes [playAudio] do
    nothing does not outlive the calls that set it. *)
Theorem loading_means_call_under_way (es : list Event) :
  exists s,
    run playbackAlert es initial = Return s /\
    (audioState s = LOADING ->
     exists k c, calls s !! k = Some c /\ is_finished c = false).
Proof.
  destruct (run_keeps loading_has_call loading_has_call_kept es initial)
    as (s & Hrun & Hs); [discriminate|].
  exists s. split; [exact Hrun | exact Hs].
Qed.





(** X14: when [playAudio] replaces a source that plays, the [ended] event
    of the replaced source, which [stop()] brings about, sets the state
    [IDLE] while the new source plays: the state then says idle although a
    session is active. *)
Theorem ended_event_of_replaced_source
    (s : State) (k n : nat) (node : SourceNode) (buffer : AudioBuffer)
    (ctx : AudioContext) :
  only_current s ->
  audioSourceRef s = Some n -> nodes s !! n = Some node ->
  node_status node = Playing -> node_onended node = true ->
  calls s !! k = Some (AwaitDecode (Return buffer)) ->
  audioContextRef s = Some ctx ->
  exists s1 s2,
    playAudio_decoded playbackAlert k s = Return s1 /\
    audioState s1 = PLAYING /\
    node_ended n s1 = Return s2 /\
    audioState s2 = IDLE /\
    active_sessions s2 = [mkSourceNode (Some buffer) true true Playing] /\
    audioSourceRef s2 = Some (length (nodes s)).
Proof.
  intros Hs Hr Hn Hst Honended Hk Hc.
  set (stopped := mkSourceNode (node_buffer node) (node_connected node)
                    (node_onended node) Stopped).
  assert (n < length (nodes s))%nat as Hlt by (by eapply lookup_lt_Some).
  assert (playAudio_decoded playbackAlert k s
          = Return (set_audioState PLAYING
                      (set_audioSourceRef (Some (length (nodes s)))
                         (set_nodes
                            (<[n := stopped]> (nodes s)
                             ++ [mkSourceNode (Some buffer) true true Playing])
                            (set_calls (<[k := Finished]> (calls s)) s)))))
    as H1.
  { unfold playAudio_decoded. rewrite Hk. simpl. rewrite Hr.
    unfold stop_swallowing, node_stop. simpl. rewrite Hn, Hst. simpl.
    unfold the_context. simpl. rewrite Hc. rewrite length_insert. reflexivity. }
  eexists _, _. split; [exact H1|]. split; [reflexivity|].
  assert (forall x, node_status x <> Playing ->
                    none_playing (<[n := x]> (nodes s))) as Hnone.
  { intros x Hx m node' Hl Hp.
    destruct (decide (m = n)) as [->|Hne].
    - rewrite list_lookup_insert_eq in Hl by exact Hlt. congruence.
    - rewrite list_lookup_insert_ne in Hl by congruence.
      pose proof (Hs m node' Hl Hp). congruence. }
  unfold node_ended. simpl.
  rewrite lookup_app_l by (by rewrite length_insert).
  rewrite list_lookup_insert_eq by exact Hlt. simpl. rewrite Honended.
  split; [reflexivity|]. split; [reflexivity|]. split; [|reflexivity].
  unfold active_sessions. simpl.
  rewrite insert_app_l by (by rewrite length_insert).
  rewrite list_insert_insert_eq, filter_app.
  rewrite none_playing_filter; [reflexivity|].
  apply Hnone. discriminate.
Qed.


(** X15: [stopAudio] does not cancel a call of [playAudio] that waits for
    its speech: when the speech arrives and decodes, the source is started
    and the state becomes [PLAYING] all the same. *)
Theorem stopAudio_does_not_cancel
    (s : State) (k : nat) (text base64 : string) (audioData : list byte)
    (buffer : AudioBuffer) (ctx : AudioContext) :
  only_current s ->
  calls s !! k = Some (AwaitSpeech text) ->
  audioContextRef s = Some ctx ->
  decodeBase64 base64 = Return audioData ->
  decodeAudioData_default audioData ctx = Return buffer ->
  exists s1 s',
    stopAudio s = Return s1 /\ audioState s1 = IDLE /\
    active_sessions s1 = [] /\
    run playbackAlert [StopAudio; SpeechSettled k (Return base64); DecodeSettled k] s
    = Return s' /\
    audioState s' = PLAYING /\
    active_sessions s' = [mkSourceNode (Some buffer) true true Playing].
Proof.
  intros Hs Hk Hc Hb Hd.
  destruct (handle_returns playbackAlert StopAudio s) as [s1 H1]. simpl in H1.
  pose proof (stopAudio_only_current s s1 Hs H1) as Hs1.
  assert (audioState s1 = IDLE /\ calls s1 = calls s /\
          audioContextRef s1 = audioContextRef s /\ audioSourceRef s1 = None)
    as (Hst1 & Hcalls1 & Hctx1 & Hr1).
  { unfold stopAudio in H1. injection H1 as <-. simpl.
    destruct (audioSourceRef s) as [n|] eqn:Hr; simpl; [|by rewrite Hr].
    pose proof (stop_swallowing_fields s n) as (_ & _ & -> & _ & -> & _).
    repeat split. }
  set (s2 := set_calls (<[k := AwaitDecode (Return buffer)]> (calls s1)) s1).
  assert (playAudio_speech playbackAlert k (Return base64) s1 = Return s2) as H2.
  { unfold playAudio_speech. rewrite Hcalls1, Hk. simpl. rewrite Hb.
    unfold the_context. rewrite Hctx1, Hc. simpl. rewrite Hd.
    subst s2. by rewrite Hcalls1. }
  assert (only_current s2) as Hs2
      by (eapply only_current_ext; [| |exact Hs1]; reflexivity).
  assert (calls s2 !! k = Some (AwaitDecode (Return buffer))) as Hk2.
  { subst s2. simpl. rewrite Hcalls1.
    apply list_lookup_insert_eq. by eapply lookup_lt_Some. }
  assert (audioContextRef s2 = Some ctx) as Hc2
      by (subst s2; simpl; by rewrite Hctx1).
  destruct (playAudio_decoded_starts playbackAlert k s2 buffer ctx Hs2 Hk2 Hc2)
    as (s' & H3 & Hact & Hst & _).
  exists s1, s'. split; [exact H1|]. split; [exact Hst1|].
  split.
  { unfold active_sessions. apply none_playing_filter.
    intros m node Hl Hp. pose proof (Hs1 m node Hl Hp). congruence. }
  split; [|by split].
  rewrite (run_step StopAudio _ s s1 H1).
  rewrite (run_step (SpeechSettled k (Return base64)) _ s1 s2 H2).
  rewrite (run_step (DecodeSettled k) _ s2 s' H3). reflexivity.
Qed.


End MorePlayback.

Lemma ended_event_of_replaced_source_witness :
  exists s1 s2,
    playAudio_decoded playbackAlert_gemini 1 replay_example = Return s1 /\
    audioState s1 = PLAYING /\
    node_ended 0 s1 = Return s2 /\
    audioState s2 = IDLE /\
    length (active_sessions s2) = 1%nat.
Proof.
  assert (only_current replay_example) as Hs.
  { intros [|m] node Hl Hp; [reflexivity|]. simpl in Hl.
    rewrite lookup_nil in Hl. discriminate. }
  destruct (ended_event_of_replaced_source playbackAlert_gemini replay_example 1 0 _ _ _
              Hs eq_refl eq_refl eq_refl eq_refl eq_refl eq_refl)
    as (s1 & s2 & H1 & Hp & H2 & Hi & Ha & _).
  exists s1, s2. rewrite Ha. auto.
Defined.

Lemma stopAudio_does_not_cancel_witness :
  exists s',
    run playbackAlert_gemini
        [StopAudio; SpeechSettled 0 (Return "AAD/fwCA"); DecodeSettled 0]
        loading_example
    = Return s' /\
    audioState s' = PLAYING /\ length (active_sessions s') = 1%nat.
Proof.
  assert (only_current loading_example) as Hs.
  { intros m node Hl. simpl in Hl. rewrite lookup_nil in Hl. discriminate. }
  destruct (stopAudio_does_not_cancel playbackAlert_gemini loading_example 0 "太初" "AAD/fwCA"
              three_samples _ (mkAudioContext 24000 Running)
              Hs eq_refl eq_refl eq_refl eq_refl)
    as (s1 & s' & _ & _ & _ & Hrun & Hst & Ha).
  exists s'. rewrite Ha. auto.
Defined.

(* ===================================================================== *)
(** * More properties of the reading progress and of the font size *)
(* ===================================================================== *)

Section MoreProgress.

Implicit Types (p : gmap string (list Z)) (bookId : string) (chapter : Z).

(** X16: after any sequence of marks, a chapter of a book is completed
    exactly when it was completed before and marked an even number of
    times, or was not and marked an odd number of times; from the empty
    mapping, exactly when it was marked an odd number of times. *)
Theorem completed_iff_marked_odd (ts : list (string * Z)) p bookId chapter :
  isCompleted (toggles ts p) bookId chapter
  = xorb (isCompleted p bookId chapter) (Nat.odd (times_toggled ts bookId chapter)) /\
  isCompleted (toggles ts ∅) bookId chapter
  = Nat.odd (times_toggled ts bookId chapter).
Proof.
  assert (forall q, isCompleted (toggles ts q) bookId chapter
                    = xorb (isCompleted q bookId chapter)
                           (Nat.odd (times_toggled ts bookId chapter))) as Hgen.
  { unfold toggles, times_toggled.
    induction ts as [|[b c] ts IH]; intros q; simpl.
    - by rewrite xorb_false_r.
    - rewrite IH, filter_cons.
      destruct (decide ((b, c) = (bookId, chapter))) as [[= -> ->]|Hne].
      + rewrite isCompleted_toggle_same. simpl length.
        rewrite Nat.odd_succ, <- Nat.negb_odd.
        by destruct (isCompleted q bookId chapter), (Nat.odd _).
      + rewrite isCompleted_toggle_other by congruence. reflexivity. }
  split; [apply Hgen|].
  rewrite Hgen. unfold isCompleted. rewrite lookup_empty. reflexivity.
Qed.

Lemma filter_remove_length (l : list Z) (c : Z) :
  NoDup l -> c ∈ l -> S (length (filter (fun x => x <> c) l)) = length l.
Proof.
  induction 1 as [|x l Hx Hl IH]; intros Hc.
  - by apply not_elem_of_nil in Hc.
  - rewrite filter_cons. destruct (decide (x <> c)) as [Hne|Heq].
    + simpl. f_equal. apply IH.
      apply elem_of_cons in Hc as [Hc|Hc]; [congruence | exact Hc].
    + assert (x = c) as -> by (destruct (decide (x = c)); tauto).
      simpl. f_equal.
      clear -Hx. induction l as [|y l IH]; [reflexivity|].
      rewrite filter_cons_True.
      * simpl. f_equal. apply IH. intros H. apply Hx. by right.
      * intros ->. apply Hx. by left.
Qed.

Lemma toggle_list_NoDup p bookId chapter :
  NoDup (default [] (p !! bookId)) ->
  NoDup (default [] (toggleChapterProgress bookId chapter p !! bookId)).
Proof.
  intros Hl. unfold toggleChapterProgress. rewrite lookup_insert_eq. simpl.
  case_bool_decide as Hin.
  - by apply NoDup_filter.
  - apply NoDup_app. split; [exact Hl|]. split; [|apply NoDup_singleton].
    intros x Hx Hx'. apply list_elem_of_singleton in Hx'. by subst.
Qed.

Lemma toggle_other_book p bookId chapter b :
  b <> bookId -> toggleChapterProgress bookId chapter p !! b = p !! b.
Proof. intros Hb. unfold toggleChapterProgress. by rewrite lookup_insert_ne. Qed.

(** X17: after any sequence of marks from the empty mapping, the list of
    every book holds no chapter twice. *)
Theorem marks_without_duplicates (ts : list (string * Z)) (b : string) :
  NoDup (default [] (toggles ts ∅ !! b)).
Proof.
  assert (forall q, (forall b, NoDup (default [] (q !! b))) ->
                    forall b, NoDup (default [] (toggles ts q !! b))) as Hgen.
  { unfold toggles. induction ts as [|[b' c] ts IH]; intros q Hq; [exact Hq|].
    simpl. apply IH. intros b0. destruct (decide (b0 = b')) as [->|Hne].
    - by apply toggle_list_NoDup.
    - rewrite toggle_other_book by exact Hne. apply Hq. }
  apply Hgen. intros b0. rewrite lookup_empty. apply NoDup_nil_2.
Qed.

(** X18: on a list without duplicates, a mark changes the number of
    completed chapters of the book by exactly one: one more when the chapter
    was not completed, one less when it was. *)
Theorem toggle_changes_count_by_one p bookId chapter :
  NoDup (default [] (p !! bookId)) ->
  let before := length (default [] (p !! bookId)) in
  let after := length (default [] (toggleChapterProgress bookId chapter p !! bookId)) in
  (isCompleted p bookId chapter = false -> after = S before) /\
  (isCompleted p bookId chapter = true -> before = S after).
Proof.
  intros Hl. unfold isCompleted, toggleChapterProgress.
  rewrite lookup_insert_eq. simpl.
  case_bool_decide as Hin; split; try discriminate; intros _.
  - symmetry. by apply filter_remove_length.
  - rewrite length_app. simpl. lia.
Qed.

Lemma toggle_changes_count_by_one_witness :
  let p : gmap string (list Z) := {[ "genesis" := [1; 2] ]} in
  NoDup (default [] (p !! "genesis")) /\
  length (default [] (toggleChapterProgress "genesis" 2 p !! "genesis")) = 1%nat /\
  length (default [] (toggleChapterProgress "genesis" 3 p !! "genesis")) = 3%nat.
Proof.
  assert (NoDup (default [] (({[ "genesis" := [1; 2] ]} : gmap string (list Z))
                               !! "genesis"))) as Hl.
  { vm_compute. apply NoDup_cons. split; [|apply NoDup_singleton].
    intros H. apply list_elem_of_singleton in H. discriminate. }
  split; [exact Hl|].
  destruct (toggle_changes_count_by_one _ "genesis" 2 Hl) as [_ H2].
  destruct (toggle_changes_count_by_one _ "genesis" 3 Hl) as [H3 _].
  split.
  - apply eq_add_S. symmetry. exact (H2 eq_refl).
  - exact (H3 eq_refl).
Defined.

End MoreProgress.

Section MoreFontSize.

Lemma fontSize_after_app (ds1 ds2 : list Z) (size : Z) :
  fontSize_after (ds1 ++ ds2) size = fontSize_after ds2 (fontSize_after ds1 size).
Proof. unfold fontSize_after. apply foldl_app. Qed.

Lemma fontSize_after_up (k : nat) (size : Z) :
  14 <= size -> size + 2 * Z.of_nat k <= 48 ->
  fontSize_after (replicate k 2) size = size + 2 * Z.of_nat k.
Proof.
  revert size. induction k as [|k IH]; intros size Hlo Hhi; simpl.
  - unfold fontSize_after. simpl. lia.
  - unfold fontSize_after in *. simpl. rewrite IH; unfold adjustFontSize; lia.
Qed.

Lemma fontSize_after_down (k : nat) (size : Z) :
  size <= 48 -> 14 <= size - 2 * Z.of_nat k ->
  fontSize_after (replicate k (-2)) size = size - 2 * Z.of_nat k.
Proof.
  revert size. induction k as [|k IH]; intros size Hhi Hlo; simpl.
  - unfold fontSize_after. simpl. lia.
  - unfold fontSize_after in *. simpl. rewrite IH; unfold adjustFontSize; lia.
Qed.

(** X19: with the two font buttons, which add and take away 2, the sizes
    that can be reached from the initial 20 are exactly the even numbers
    from 14 to 48. *)
Theorem fontSize_reachable (size : Z) :
  (exists deltas, Forall is_button_delta deltas /\
                  fontSize_after deltas initialFontSize = size)
  <-> (14 <= size <= 48 /\ Z.even size = true).
Proof.
  split.
  - intros (deltas & Hd & <-).
    assert (forall s0, 14 <= s0 <= 48 /\ Z.even s0 = true ->
                       14 <= fontSize_after deltas s0 <= 48 /\
                       Z.even (fontSize_after deltas s0) = true) as Hgen.
    { unfold fontSize_after. induction Hd as [|d ds Hdelta _ IH]; intros s0 Hs0;
        [exact Hs0|].
      simpl. apply IH. unfold adjustFontSize.
      destruct Hs0 as [Hr He]. apply Z.even_spec in He as [h ->].
      split; [lia|]. apply Z.even_spec.
      destruct Hdelta as [-> | ->].
      - destruct (decide (2 * h - 2 < 14)).
        + exists 7. lia.
        + exists (h - 1). lia.
      - destruct (decide (48 < 2 * h + 2)).
        + exists 24. lia.
        + exists (h + 1). lia. }
    apply Hgen. unfold initialFontSize. split; [lia | reflexivity].
  - intros [Hr He]. apply Z.even_spec in He as [h ->]. unfold initialFontSize.
    destruct (decide (10 <= h)) as [Hup|Hdown].
    + exists (replicate (Z.to_nat (h - 10)) 2). split.
      * apply Forall_replicate. by right.
      * rewrite fontSize_after_up; lia.
    + exists (replicate (Z.to_nat (10 - h)) (-2)). split.
      * apply Forall_replicate. by left.
      * rewrite fontSize_after_down; lia.
Qed.

End MoreFontSize.

(* ===================================================================== *)
(** * Properties of loading a chapter *)
(* ===================================================================== *)

Section LoadingAChapter.

Variable API_KEY : option string.
Variable generateContent : Endpoint.
Variables (book : string) (chapter : Z).

(** X20: when [loadContent] has settled the chapter text is never empty and
    [isLoadingContent] is off, in both components: the component with
    [services/geminiService.ts] shows the text of the service or, when the
    service throws, its own fallback text; the component with the
    [getAiClient] service always shows what the service returned, its
    [catch] is never entered. *)
Theorem loaded_text_never_empty (p : PageState) :
  (exists p',
      loadContent_settled loadFallback_services
        (Services.fetchChapterText API_KEY generateContent book chapter) p
      = Return p' /\
      isLoadingContent p' = false /\ chapterContent (player p') <> "" /\
      (forall e,
          generateContent (mkClient API_KEY) (Services.chapterRequest book chapter)
          = Throw e ->
          chapterContent (player p') = loadFallback_services)) /\
  (exists p' t,
      loadContent_settled loadFallback_gemini
        (Gemini.fetchChapterText API_KEY generateContent book chapter) p
      = Return p' /\
      isLoadingContent p' = false /\
      Gemini.fetchChapterText API_KEY generateContent book chapter = Return t /\
      chapterContent (player p') = t /\ t <> "").
Proof.
  split.
  - unfold loadContent_settled.
    destruct (Services.fetchChapterText API_KEY generateContent book chapter)
      as [t|e] eqn:Hf; simpl.
    + eexists. split; [reflexivity|]. split; [reflexivity|]. split.
      * by apply (Services_fetchChapterText_nonempty API_KEY generateContent book chapter).
      * intros e He. unfold Services.fetchChapterText in Hf. simpl in Hf.
        rewrite He in Hf. discriminate.
    + eexists. split; [reflexivity|]. split; [reflexivity|].
      split; [discriminate | reflexivity].
  - destruct (Gemini_fetchChapterText_nonempty API_KEY generateContent book chapter)
      as (t & Hf & Hne).
    unfold loadContent_settled. rewrite Hf. simpl.
    eexists _, t. repeat split. exact Hne.
Qed.


End LoadingAChapter.


(* ===================================================================== *)
(** * Properties of the catalogue and of the navigation *)
(* ===================================================================== *)

Section CatalogueSearch.

Lemma string_append_cons (x : ascii) (a b : string) :
  (String x a ++ b)%string = String x (a ++ b).
Proof. reflexivity. Qed.

Lemma string_append_assoc (a b c : string) :
  ((a ++ b) ++ c)%string = (a ++ (b ++ c))%string.
Proof.
  induction a as [|x a IH]; [reflexivity|].
  rewrite !string_append_cons. f_equal. exact IH.
Qed.

Lemma prefix_spec (t s : string) :
  String.prefix t s = true <-> exists b, s = (t ++ b)%string.
Proof.
  revert s. induction t as [|x t IH]; intros s.
  - split; [intros _; by exists s | intros _; by destruct s].
  - destruct s as [|y s]; simpl.
    + split; [discriminate | intros [b Hb]; discriminate].
    + destruct (ascii_dec x y) as [->|Hne].
      * rewrite IH. split; intros [b Hb]; exists b.
        -- by rewrite string_append_cons, Hb.
        -- rewrite string_append_cons in Hb. congruence.
      * split; [discriminate|].
        intros [b Hb]. rewrite string_append_cons in Hb. congruence.
Qed.

Lemma includes_spec (s t : string) :
  includes s t = true <-> exists a b, s = (a ++ t ++ b)%string.
Proof.
  induction s as [|c s IH]; cbn [includes].
  - rewrite orb_false_r, prefix_spec. split.
    + intros [b Hb]. exists "", b. exact Hb.
    + intros (a & b & Hab). destruct a as [|x a]; [eauto|].
      rewrite string_append_cons in Hab. discriminate.
  - rewrite orb_true_iff, prefix_spec, IH. split.
    + intros [[b Hb] | (a & b & Hab)].
      * exists "", b. exact Hb.
      * exists (String c a), b. by rewrite string_append_cons, Hab.
    + intros (a & b & Hab). destruct a as [|x a].
      * left. eauto.
      * right. rewrite string_append_cons in Hab. exists a, b. congruence.
Qed.

Lemma includes_transitive (s t u : string) :
  includes s t = true -> includes t u = true -> includes s u = true.
Proof.
  rewrite !includes_spec. intros (a & b & ->) (a' & b' & ->).
  exists (a ++ a')%string, (b' ++ b)%string.
  by rewrite !string_append_assoc.
Qed.

Variable BIBLE_BOOKS : list BibleBook.

(** X22: the search of the sidebar keeps the books in the order of the
    catalogue, an empty search keeps them all, and a search text that
    contains an earlier search text shows no book that the earlier one did
    not show. *)
Theorem filteredBooks_narrows (search search' : string) :
  filteredBooks BIBLE_BOOKS "" = BIBLE_BOOKS /\
  sublist (filteredBooks BIBLE_BOOKS search) BIBLE_BOOKS /\
  (includes search' search = true ->
   sublist (filteredBooks BIBLE_BOOKS search') (filteredBooks BIBLE_BOOKS search)).
Proof.
  unfold filteredBooks. split; [|split].
  - induction BIBLE_BOOKS as [|b r IH]; [reflexivity|].
    rewrite filter_cons_True; [by rewrite IH|].
    apply includes_spec. exists "", (book_name b). reflexivity.
  - apply sublist_filter.
  - intros Hinc. induction BIBLE_BOOKS as [|b r IH]; [constructor|].
    rewrite !filter_cons.
    destruct (decide (includes (book_name b) search' = true)) as [H'|H'].
    + rewrite decide_True by (by eapply includes_transitive).
      by apply sublist_skip.
    + destruct (decide (includes (book_name b) search = true));
        [by apply sublist_cons | exact IH].
Qed.

(** X23: when every book of the catalogue is of the old or of the new
    testament, the book buttons of the sidebar are the filtered books, each
    once. *)
Theorem bookButtons_cover_filteredBooks (search : string) :
  Forall (fun b => testament b = "Old" \/ testament b = "New") BIBLE_BOOKS ->
  bookButtons BIBLE_BOOKS search ≡ₚ filteredBooks BIBLE_BOOKS search.
Proof.
  intros Hall. unfold bookButtons.
  assert (Forall (fun b => testament b = "Old" \/ testament b = "New")
                 (filteredBooks BIBLE_BOOKS search)) as Hf.
  { unfold filteredBooks. apply Forall_forall. intros b Hb.
    apply list_elem_of_filter in Hb as [_ Hb].
    by apply (proj1 (Forall_forall _ _) Hall). }
  induction Hf as [|b r Hb _ IH]; [reflexivity|].
  rewrite !filter_cons. destruct Hb as [Hb|Hb]; rewrite Hb.
  - rewrite decide_True by reflexivity.
    rewrite decide_False by discriminate.
    simpl. by rewrite IH.
  - rewrite decide_False by discriminate.
    rewrite decide_True by reflexivity.
    by rewrite <- Permutation_middle, IH.
Qed.

End CatalogueSearch.

Lemma bookButtons_cover_filteredBooks_witness :
  Forall (fun b => testament b = "Old" \/ testament b = "New") two_books /\
  bookButtons two_books "書" ≡ₚ filteredBooks two_books "書".
Proof.
  assert (Forall (fun b => testament b = "Old" \/ testament b = "New") two_books)
    as Hall by (repeat constructor; by right).
  split; [exact Hall|].
  apply (bookButtons_cover_filteredBooks two_books "書" Hall).
Defined.

Section Navigating.

Variable BIBLE_BOOKS : list BibleBook.
Variable first : BibleBook.

(** The catalogue is not in the sources; what the navigation needs of it:
    [BIBLE_BOOKS[0]] is a book, every book has a chapter, and books with the
    same id have the same number of chapters. *)
Hypothesis first_book : BIBLE_BOOKS !! 0%nat = Some first.
Hypothesis books_have_chapters : Forall (fun b => 1 <= chapters b) BIBLE_BOOKS.
Hypothesis ids_identify :
  forall b1 b2, b1 ∈ BIBLE_BOOKS -> b2 ∈ BIBLE_BOOKS ->
                book_id b1 = book_id b2 -> chapters b1 = chapters b2.

Lemma bookButtons_of_catalogue (search : string) (book : BibleBook) :
  book ∈ bookButtons BIBLE_BOOKS search -> book ∈ BIBLE_BOOKS.
Proof.
  unfold bookButtons, filteredBooks. rewrite elem_of_app, !list_elem_of_filter.
  tauto.
Qed.

Lemma chapterButtons_range (book : BibleBook) (i : nat) (chap : Z) :
  chapterButtons book !! i = Some chap -> 1 <= chap <= chapters book.
Proof. unfold chapterButtons. rewrite lookup_seqZ. lia. Qed.

(** Distinct chapters among the first [n] are at most [n]. *)
Lemma distinct_chapters_count (l : list Z) (n : Z) :
  0 <= n -> NoDup l -> Forall (fun c => 1 <= c <= n) l ->
  Z.of_nat (length l) <= n.
Proof.
  intros Hn Hnd Hall.
  assert (l ⊆+ seqZ 1 n) as Hsub.
  { apply NoDup_submseteq; [exact Hnd|]. intros x Hx.
    apply elem_of_seqZ.
    pose proof (proj1 (Forall_forall _ _) Hall x Hx) as Hin; cbv beta in Hin. lia. }
  apply submseteq_length in Hsub. rewrite length_seqZ in Hsub. lia.
Qed.

Lemma toggle_keeps_marks (s : Nav) (chap : Z) :
  nav_ok BIBLE_BOOKS s -> 1 <= chap <= chapters (selectedBook s) ->
  forall bookId l,
    toggleChapterProgress (book_id (selectedBook s)) chap (progress s) !! bookId
    = Some l ->
    NoDup l /\
    exists book, book ∈ BIBLE_BOOKS /\ book_id book = bookId /\
                 Forall (fun c => 1 <= c <= chapters book) l.
Proof.
  intros (Hbook & _ & Hmarks) Hchap bookId l Hl.
  destruct (decide (bookId = book_id (selectedBook s))) as [->|Hne];
    [|rewrite toggle_other_book in Hl by exact Hne; by apply Hmarks].
  assert (NoDup (default [] (progress s !! book_id (selectedBook s))) /\
          Forall (fun c => 1 <= c <= chapters (selectedBook s))
                 (default [] (progress s !! book_id (selectedBook s))))
    as [Hnd Hrange].
  { destruct (progress s !! book_id (selectedBook s)) as [l0|] eqn:Hl0; simpl.
    - destruct (Hmarks _ _ Hl0) as (Hnd & book0 & Hb0 & Hid & Hr).
      split; [exact Hnd|].
      by rewrite <- (ids_identify book0 (selectedBook s) Hb0 Hbook Hid).
    - split; [apply NoDup_nil_2 | constructor]. }
  split.
  - pose proof (toggle_list_NoDup (progress s) (book_id (selectedBook s)) chap Hnd)
      as Hnd'.
    by rewrite Hl in Hnd'.
  - exists (selectedBook s). split; [exact Hbook|]. split; [reflexivity|].
    unfold toggleChapterProgress in Hl. rewrite lookup_insert_eq in Hl.
    injection Hl as <-. case_bool_decide.
    + apply Forall_forall. intros x Hx.
      apply list_elem_of_filter in Hx as [_ Hx].
      by apply (proj1 (Forall_forall _ _) Hrange).
    + apply Forall_app. split; [exact Hrange | by constructor].
Qed.

Lemma click_keeps_nav_ok (c : Click) (s : Nav) :
  nav_ok BIBLE_BOOKS s -> nav_ok BIBLE_BOOKS (click BIBLE_BOOKS c s).
Proof.
  intros Hs. pose proof Hs as (Hbook & Hchap & Hmarks).
  destruct c as [i|i|i| | | |text]; simpl; try exact Hs.
  - destruct (bookButtons BIBLE_BOOKS (sidebarSearch s) !! i) as [book|] eqn:Hi;
      [|exact Hs].
    assert (book ∈ BIBLE_BOOKS) as Hb.
    { eapply bookButtons_of_catalogue, list_elem_of_lookup_2, Hi. }
    split; [exact Hb|]. split; [|exact Hmarks]. simpl.
    pose proof (proj1 (Forall_forall _ _) books_have_chapters book Hb) as Hin; cbv beta in Hin. lia.
  - destruct (chapterButtons (selectedBook s) !! i) as [chap|] eqn:Hi; [|exact Hs].
    split; [exact Hbook|]. split; [|exact Hmarks]. simpl.
    by eapply chapterButtons_range.
  - destruct (chapterButtons (selectedBook s) !! i) as [chap|] eqn:Hi; [|exact Hs].
    split; [exact Hbook|]. split; [exact Hchap|]. simpl.
    apply toggle_keeps_marks; [exact Hs | by eapply chapterButtons_range].
  - split; [exact Hbook|]. split; [exact Hchap|]. simpl.
    by apply toggle_keeps_marks.
Qed.

(** X24: whatever the reader clicks and types, starting without saved
    progress: the open book is a book of the catalogue, the open chapter is
    one of its chapters, the counter of completed chapters of a book never
    exceeds the number of its chapters, and only chapters that the book has
    are completed. *)
Theorem navigation_stays_in_catalogue (cs : list Click) :
  let s := clicks BIBLE_BOOKS cs (initialNav first) in
  selectedBook s ∈ BIBLE_BOOKS /\
  1 <= selectedChapter s <= chapters (selectedBook s) /\
  forall book,
    book ∈ BIBLE_BOOKS ->
    0 <= completedCount s book <= chapters book /\
    forall chapter,
      isCompleted (progress s) (book_id book) chapter = true ->
      1 <= chapter <= chapters book.
Proof.
  assert (first ∈ BIBLE_BOOKS) as Hfirst
      by (eapply list_elem_of_lookup_2, first_book).
  assert (nav_ok BIBLE_BOOKS (initialNav first)) as Hinit.
  { split; [exact Hfirst|]. split.
    - simpl. pose proof (proj1 (Forall_forall _ _) books_have_chapters first Hfirst) as Hin; cbv beta in Hin.
      lia.
    - intros bookId l Hl. simpl in Hl. rewrite lookup_empty in Hl. discriminate. }
  assert (forall s0, nav_ok BIBLE_BOOKS s0 ->
                     nav_ok BIBLE_BOOKS (clicks BIBLE_BOOKS cs s0)) as Hrun.
  { unfold clicks. induction cs as [|c cs' IH]; intros s0 Hs0; [exact Hs0|].
    simpl. apply IH. by apply click_keeps_nav_ok. }
  intros s. pose proof (Hrun _ Hinit) as (Hbook & Hchap & Hmarks). fold s in Hbook, Hchap, Hmarks.
  split; [exact Hbook|]. split; [exact Hchap|].
  intros book Hb. unfold completedCount, isCompleted.
  destruct (progress s !! book_id book) as [l|] eqn:Hl; simpl.
  - destruct (Hmarks _ _ Hl) as (Hnd & book0 & Hb0 & Hid & Hr).
    rewrite (ids_identify book0 book Hb0 Hb Hid) in Hr.
    pose proof (proj1 (Forall_forall _ _) books_have_chapters book Hb) as Hone;
      cbv beta in Hone.
    split.
    + split; [lia | apply distinct_chapters_count; [lia | done..]].
    + intros chapter Hc. apply bool_decide_eq_true_1 in Hc.
      by apply (proj1 (Forall_forall _ _) Hr).
  - split.
    + pose proof (proj1 (Forall_forall _ _) books_have_chapters book Hb) as Hin; cbv beta in Hin. lia.
    + intros chapter Hc. discriminate Hc.
Qed.

End Navigating.

Lemma navigation_stays_in_catalogue_witness :
  let s := clicks two_books
             [SearchInput "猶"; BookButton 0; CurrentMark; ChapterButton 3;
              BookButton 5; SearchInput ""; BookButton 0; ChapterButton 49;
              ChapterMark 2; CurrentMark]
             (initialNav (mkBibleBook "genesis" "創世記" "Old" 50)) in
  1 <= selectedChapter s <= chapters (selectedBook s) /\
  forall book, book ∈ two_books -> 0 <= completedCount s book <= chapters book.
Proof.
  assert (two_books !! 0%nat = Some (mkBibleBook "genesis" "創世記" "Old" 50))
    as H1 by reflexivity.
  assert (Forall (fun b => 1 <= chapters b) two_books) as H2
      by (repeat constructor; simpl; lia).
  assert (forall b1 b2, b1 ∈ two_books -> b2 ∈ two_books ->
                        book_id b1 = book_id b2 -> chapters b1 = chapters b2) as H3.
  { intros b1 b2 Hb1 Hb2.
    apply elem_of_cons in Hb1 as [->|Hb1]; apply elem_of_cons in Hb2 as [->|Hb2];
      try apply list_elem_of_singleton in Hb1 as ->;
      try apply list_elem_of_singleton in Hb2 as ->;
      simpl; intros; congruence. }
  intros s.
  destruct (navigation_stays_in_catalogue two_books _ H1 H2 H3
              [SearchInput "猶"; BookButton 0; CurrentMark; ChapterButton 3;
               BookButton 5; SearchInput ""; BookButton 0; ChapterButton 49;
               ChapterMark 2; CurrentMark])
    as (_ & Hchap & Hcount).
  split; [exact Hchap|].
  intros book Hb. exact (proj1 (Hcount book Hb)).
Defined.
